(** * Load-order configuration manager (src/config/mod_config_manager.py)

    A shallow embedding of the dependency-management methods of
    [ModConfigManager]: entity enable, force-last / force-first synthesis and
    detection, pairwise native ordering, and reconciliation.

    Conventions of the embedding.
    - A Python [str] is a [string] holding its UTF-8 encoding.  Substring
      search, [endswith] and [replace] on code points coincide with the same
      operations on the UTF-8 bytes, because no encoded character is a
      proper infix of another one.
    - The manager's two collections are Python lists of mutable dataclass
      objects.  Every object is reachable through exactly one list slot, so a
      list of records models them; "the object found by a loop" is a list
      index, and an attribute assignment is an update at that index.
    - [==] / [!=] on dataclass objects is field-wise (the dataclasses are
      declared with the default [eq=True]); it is equality of records here.
    - A Python [set] of strings is a [gset string], a [dict] from strings to
      strings a [gmap string string].
    - [pathlib.Path(p).name] and [str.lower] belong to the Python standard
      library and are parameters of the development; the concrete instances
      [basename] and [ascii_lower] are only used to run examples. *)

From stdpp Require Import base strings list gmap.
From Stdlib Require Import String Ascii.

Open Scope string_scope.
Open Scope list_scope.

(** ** Python string operations *)

(** [s.endswith(suffix)] *)
Definition str_endswith (s suffix : string) : bool :=
  bool_decide (String.length suffix ≤ String.length s)%nat
  && bool_decide
       (substring (String.length s - String.length suffix)%nat
                  (String.length suffix) s = suffix).

(** [s.replace(old, new)] for a non-empty [old]: occurrences are replaced
    from left to right and do not overlap.  [skip] counts the characters of
    the current occurrence that are still to be dropped. *)
Fixpoint str_replace_from (old new : string) (skip : nat) (s : string) : string :=
  match s with
  | EmptyString => EmptyString
  | String c s' =>
      match skip with
      | S k => str_replace_from old new k s'
      | O =>
          if String.prefix old s
          then new +:+ str_replace_from old new (String.length old - 1)%nat s'
          else String c (str_replace_from old new 0 s')
      end
  end.

Definition str_replace (old new s : string) : string :=
  str_replace_from old new 0 s.

(** [sub in s] *)
Fixpoint str_contains (sub s : string) : bool :=
  String.prefix sub s
  || match s with
     | EmptyString => false
     | String _ s' => str_contains sub s'
     end.

(** The decoration the user interface appends to externally sourced entries. *)
Definition EXTERNAL_MARK : string := " (外部)".

(** [x.replace(" (外部)", "")] *)
Definition strip_external (x : string) : string :=
  str_replace EXTERNAL_MARK "" x.

(** [x.replace(" (外部)", "") if x.endswith(" (外部)") else x], the form
    used by [add_package] and [add_native]. *)
Definition strip_external_suffix (x : string) : string :=
  if str_endswith x EXTERNAL_MARK then strip_external x else x.

(** ** Data model *)

(** One entry of a [load_before] / [load_after] list: a Python dict.  The
    ['id'] key may be missing in a profile read from disk, hence the option;
    the code reads it as [dep.get('id', '')] or as [dep.get('id')]. *)
Record Dep := mkDep { dep_id : option string; dep_optional : bool }.

#[global] Instance Dep_eq_dec : EqDecision Dep.
Proof. solve_decision. Defined.

(** [dep.get('id', '')] *)
Definition dep_get_id (d : Dep) : string := default "" (dep_id d).

(** [{"id": i, "optional": o}] *)
Definition new_dep (o : bool) (i : string) : Dep := mkDep (Some i) o.

(** Truth value of an [Optional[List[...]]]: [None] and [[]] are falsy. *)
Definition truthy {A} (l : option (list A)) : bool :=
  match l with
  | Some (_ :: _) => true
  | _ => false
  end.

(** [l if l else None] *)
Definition or_None {A} (l : list A) : option (list A) :=
  match l with
  | [] => None
  | _ => Some l
  end.

(** The elements of an optional list ([None] has none). *)
Definition items {A} (l : option (list A)) : list A := default [] l.

Module ModPackage.
Record t := mk {
  id : string;
  source : string;
  load_after : option (list Dep);
  load_before : option (list Dep);
  enabled : bool;
  is_external : bool;
  comment : string
}.

Definition set_load_after (v : option (list Dep)) (p : t) : t :=
  mk (id p) (source p) v (load_before p) (enabled p) (is_external p) (comment p).
End ModPackage.

#[global] Instance ModPackage_eq_dec : EqDecision ModPackage.t.
Proof. solve_decision. Defined.

Module ModNative.
Record t := mk {
  path : string;
  optional : bool;
  enabled : bool;
  initializer : option string;
  finalizer : option string;
  load_after : option (list Dep);
  load_before : option (list Dep);
  load_early : bool;
  is_external : bool;
  comment : string
}.

Definition set_load_before (v : option (list Dep)) (n : t) : t :=
  mk (path n) (optional n) (enabled n) (initializer n) (finalizer n)
     (load_after n) v (load_early n) (is_external n) (comment n).

Definition set_load_after (v : option (list Dep)) (n : t) : t :=
  mk (path n) (optional n) (enabled n) (initializer n) (finalizer n)
     v (load_before n) (load_early n) (is_external n) (comment n).
End ModNative.

#[global] Instance ModNative_eq_dec : EqDecision ModNative.t.
Proof. solve_decision. Defined.

(** The part of [self] the modelled methods read or write. *)
Record ModConfigManager := mkManager {
  packages : list ModPackage.t;
  natives : list ModNative.t;
  external_packages : gmap string string;
  external_natives : gmap string string
}.

Definition set_packages (ps : list ModPackage.t) (self : ModConfigManager) :=
  mkManager ps (natives self) (external_packages self) (external_natives self).

Definition set_natives (ns : list ModNative.t) (self : ModConfigManager) :=
  mkManager (packages self) ns (external_packages self) (external_natives self).

(** ** Packages *)

(** [for pkg in self.packages: if pkg.id == clean_id: ...; break] *)
Definition find_package (ps : list ModPackage.t) (clean_id : string)
  : option (nat * ModPackage.t) :=
  list_find (λ p, ModPackage.id p = clean_id) ps.

(** [add_package(package_id, source_path, enabled)] *)
Definition add_package (self : ModConfigManager)
    (package_id source_path : string) (enabled : bool)
  : bool * ModConfigManager :=
  let is_external := str_endswith package_id EXTERNAL_MARK in
  let clean_id := if is_external then strip_external package_id else package_id in
  if existsb (λ pkg, bool_decide (ModPackage.id pkg = clean_id)) (packages self)
  then (false, self)
  else
    let actual_source :=
      if is_external
      then default source_path (external_packages self !! clean_id)
      else source_path in
    let package :=
      ModPackage.mk clean_id actual_source None None enabled is_external "" in
    (true, set_packages (packages self ++ [package]) self).

(** The ids collected by
    [for pkg in self.packages: if pkg.enabled and pkg.id != clean_id]. *)
Definition other_enabled_mods (ps : list ModPackage.t) (clean_id : string)
  : list string :=
  ModPackage.id <$>
    filter (λ pkg, ModPackage.enabled pkg = true ∧ ModPackage.id pkg ≠ clean_id) ps.

(** [set_force_load_last(mod_id)] *)
Definition set_force_load_last (ps : list ModPackage.t) (mod_id : string)
  : bool * list ModPackage.t :=
  let clean_id := strip_external mod_id in
  match find_package ps clean_id with
  | None => (false, ps)
  | Some (i, target_package) =>
      let ps1 :=
        (λ other_pkg,
           if bool_decide (other_pkg ≠ target_package)
           then ModPackage.set_load_after None other_pkg
           else other_pkg) <$> ps in
      let others := other_enabled_mods ps1 clean_id in
      match others with
      | [] => (true, alter (ModPackage.set_load_after None) i ps1)
      | _ =>
          (true,
           alter (ModPackage.set_load_after (Some (new_dep true <$> others))) i ps1)
      end
  end.

(** [is_force_load_last(mod_id)].  The final comparison
    [intersection_count >= len(other_enabled_mods) * 0.5] is between an
    integer and an exactly representable float; it holds exactly when twice
    the count reaches the length. *)
Definition is_force_load_last (ps : list ModPackage.t) (mod_id : string) : bool :=
  let clean_id := strip_external mod_id in
  match find_package ps clean_id with
  | None => false
  | Some (_, target_package) =>
      if negb (truthy (ModPackage.load_after target_package)) then false
      else
        let other_enabled : gset string :=
          list_to_set (other_enabled_mods ps clean_id) in
        let load_after_ids : gset string :=
          list_to_set
            (omap dep_id (items (ModPackage.load_after target_package))) in
        if bool_decide (size other_enabled = 0%nat) then false
        else
          let intersection_count := size (load_after_ids ∩ other_enabled) in
          if bool_decide (size other_enabled ≤ 3)%nat
          then bool_decide (1 ≤ intersection_count)%nat
          else bool_decide (size other_enabled ≤ 2 * intersection_count)%nat
  end.

(** ** Natives *)

Section natives.
(** [Path(p).name], the final path component, and [s.lower()]. *)
Variable path_name : string → string.
Variable str_lower : string → string.

Definition dll_name_of (n : ModNative.t) : string :=
  path_name (ModNative.path n).

(** The match every lookup of a native uses:
    [Path(native.path).name == key or native.path == key
     or native.path.endswith(key)]. *)
Definition native_matches (key : string) (n : ModNative.t) : bool :=
  bool_decide (dll_name_of n = key)
  || bool_decide (ModNative.path n = key)
  || str_endswith (ModNative.path n) key.

(** [for native in self.natives: if <match>: target_native = native; break] *)
Definition find_native (ns : list ModNative.t) (key : string)
  : option (nat * ModNative.t) :=
  list_find (λ n, native_matches key n = true) ns.

(** [add_native(dll_path, optional, enabled, load_early)] *)
Definition add_native (self : ModConfigManager) (dll_path : string)
    (optional enabled load_early : bool) : bool * ModConfigManager :=
  let is_external := str_endswith dll_path EXTERNAL_MARK in
  let clean_path := if is_external then strip_external dll_path else dll_path in
  if existsb (λ native, bool_decide (ModNative.path native = clean_path))
             (natives self)
  then (false, self)
  else
    let actual_path :=
      if is_external
      then default clean_path (external_natives self !! clean_path)
      else clean_path in
    let load_early :=
      if negb load_early
         && str_contains "seamlesscoop" (str_lower clean_path)
         && str_contains "nrsc.dll" (str_lower clean_path)
      then true else load_early in
    let native :=
      ModNative.mk actual_path optional enabled None None None None
                   load_early is_external "" in
    (true, set_natives (natives self ++ [native]) self).

(** The names collected by
    [for other in self.natives: if other.enabled and other != native]. *)
Definition other_enabled_dlls (ns : list ModNative.t) (native : ModNative.t)
  : list string :=
  dll_name_of <$>
    filter (λ other, ModNative.enabled other = true ∧ other ≠ native) ns.

(** [is_force_load_first_native(dll_name)]: the loop returns at the first
    matching native whose [load_before] is truthy, and goes on to the next
    native otherwise. *)
Fixpoint is_force_load_first_native_loop (all : list ModNative.t)
    (clean_name : string) (rest : list ModNative.t) : bool :=
  match rest with
  | [] => false
  | native :: rest' =>
      if native_matches clean_name native
         && truthy (ModNative.load_before native)
      then
        let other_dlls : gset string :=
          list_to_set (other_enabled_dlls all native) in
        let load_before_ids : gset string :=
          list_to_set (dep_get_id <$> items (ModNative.load_before native)) in
        bool_decide (other_dlls ⊆ load_before_ids)
      else is_force_load_first_native_loop all clean_name rest'
  end.

Definition is_force_load_first_native (ns : list ModNative.t)
    (dll_name : string) : bool :=
  is_force_load_first_native_loop ns (strip_external dll_name) ns.

(** The hard-coded table of fixed precedence pairs. *)
Definition specific_orders : list (string * string) :=
  [("nighter.dll", "nrsc.dll")].

(** [_has_only_specific_order_deps(native)] *)
Definition _has_only_specific_order_deps (native : ModNative.t) : bool :=
  truthy (ModNative.load_before native)
  && forallb
       (λ dep,
          existsb
            (λ '(first, second),
               bool_decide (dll_name_of native = first)
               && bool_decide (dep_get_id dep = second))
            specific_orders)
       (items (ModNative.load_before native)).

(** [any(dep.get('id') == target for dep in load_before)] *)
Definition has_dep_on (target : string) (lb : option (list Dep)) : bool :=
  existsb (λ dep, bool_decide (dep_id dep = Some target)) (items lb).

(** [_would_create_circular_dependency(first_dll, second_dll)] and
    [_dll_depends_on(dll_name, target_dll)] run the same loop: some enabled
    native named [dll] has a truthy [load_before] with an entry on
    [target]. *)
Definition _dll_depends_on (ns : list ModNative.t) (dll target : string) : bool :=
  existsb
    (λ native,
       ModNative.enabled native
       && bool_decide (dll_name_of native = dll)
       && truthy (ModNative.load_before native)
       && has_dep_on target (ModNative.load_before native))
    ns.

Definition _would_create_circular_dependency (ns : list ModNative.t)
    (first_dll second_dll : string) : bool :=
  _dll_depends_on ns second_dll first_dll.

(** One iteration of [_remove_reverse_dependency(from_dll, to_dll)]. *)
Definition remove_dep_from (from_dll to_dll : string) (native : ModNative.t)
  : ModNative.t :=
  if ModNative.enabled native
     && bool_decide (dll_name_of native = from_dll)
     && truthy (ModNative.load_before native)
  then
    ModNative.set_load_before
      (or_None
         (filter (λ dep, dep_id dep ≠ Some to_dll)
                 (items (ModNative.load_before native))))
      native
  else native.

Definition _remove_reverse_dependency (ns : list ModNative.t)
    (from_dll to_dll : string) : list ModNative.t :=
  remove_dep_from from_dll to_dll <$> ns.

(** The lookup loop of [set_specific_dll_order]: it has no [break], so
    the last match wins, and a native that matches the first key is never
    considered for the second one ([elif]).  [i] is the index of the head
    of [ns]. *)
Fixpoint locate_pair (first_clean second_clean : string)
    (ns : list ModNative.t) (i : nat) (acc : option nat * option nat)
  : option nat * option nat :=
  match ns with
  | [] => acc
  | native :: ns' =>
      locate_pair first_clean second_clean ns' (S i)
        (if native_matches first_clean native then (Some i, acc.2)
         else if native_matches second_clean native then (acc.1, Some i)
         else acc)
  end.

(** The tail of [set_specific_dll_order]: make [load_before] a list if it
    is falsy, then append the edge unless an entry with that id exists. *)
Definition add_edge (second_dll_name : string) (first_native : ModNative.t)
  : ModNative.t :=
  let lb :=
    if truthy (ModNative.load_before first_native)
    then items (ModNative.load_before first_native) else [] in
  if has_dep_on second_dll_name (Some lb)
  then ModNative.set_load_before (Some lb) first_native
  else ModNative.set_load_before
         (Some (lb ++ [new_dep false second_dll_name])) first_native.

(** [set_specific_dll_order(first_dll, second_dll)] *)
Definition set_specific_dll_order (ns : list ModNative.t)
    (first_dll second_dll : string) : bool * list ModNative.t :=
  let first_clean := strip_external first_dll in
  let second_clean := strip_external second_dll in
  match locate_pair first_clean second_clean ns 0 (None, None) with
  | (Some i, Some j) =>
      match ns !! i, ns !! j with
      | Some first_native, Some second_native =>
          if negb (ModNative.enabled first_native)
             || negb (ModNative.enabled second_native)
          then (false, ns)
          else
            let second_dll_name := dll_name_of second_native in
            let first_dll_name := dll_name_of first_native in
            let ns1 :=
              if _would_create_circular_dependency ns first_dll_name second_dll_name
              then _remove_reverse_dependency ns second_dll_name first_dll_name
              else ns in
            (true, alter (add_edge second_dll_name) i ns1)
      | _, _ => (false, ns)
      end
  | _ => (false, ns)
  end.

(** The flags computed by the scan of [ensure_specific_dll_orders]. *)
Definition both_enabled (ns : list ModNative.t) (first_dll second_dll : string)
  : bool * bool :=
  fold_left
    (λ '(first_enabled, second_enabled) native,
       if bool_decide (dll_name_of native = first_dll) && ModNative.enabled native
       then (true, second_enabled)
       else if bool_decide (dll_name_of native = second_dll)
               && ModNative.enabled native
       then (first_enabled, true)
       else (first_enabled, second_enabled))
    ns (false, false).

(** [ensure_specific_dll_orders()] *)
Definition ensure_specific_dll_orders (ns : list ModNative.t) : list ModNative.t :=
  fold_left
    (λ ns '(first_dll, second_dll),
       match both_enabled ns first_dll second_dll with
       | (true, true) => (set_specific_dll_order ns first_dll second_dll).2
       | _ => ns
       end)
    specific_orders ns.

(** [_optimize_force_load_dependencies(dll_name)] *)
Definition _optimize_force_load_dependencies (ns : list ModNative.t)
    (dll_name : string) : list ModNative.t :=
  let clean_name := strip_external dll_name in
  match find_native ns clean_name with
  | None => ns
  | Some (i, target_native) =>
      if negb (truthy (ModNative.load_before target_native)) then ns
      else
        let load_before := items (ModNative.load_before target_native) in
        let optimized_deps :=
          filter
            (λ dep,
               existsb
                 (λ other_dep,
                    bool_decide (dep_get_id other_dep ≠ dep_get_id dep)
                    && _dll_depends_on ns (dep_get_id other_dep) (dep_get_id dep))
                 load_before = false)
            load_before in
        alter (ModNative.set_load_before (or_None optimized_deps)) i ns
  end.

(** The first loop of [set_force_load_first_native]: every other native
    loses its [load_before] unless it holds fixed-precedence entries only. *)
Definition clear_other_force_first (target_native other_native : ModNative.t)
  : ModNative.t :=
  if bool_decide (other_native ≠ target_native)
  then
    if truthy (ModNative.load_before other_native)
       && _has_only_specific_order_deps other_native
    then other_native
    else ModNative.set_load_before None other_native
  else other_native.

(** [set_force_load_first_native(dll_name)] *)
Definition set_force_load_first_native (ns : list ModNative.t)
    (dll_name : string) : bool * list ModNative.t :=
  let clean_name := strip_external dll_name in
  match find_native ns clean_name with
  | None => (false, ns)
  | Some (i, target_native) =>
      let ns1 := clear_other_force_first target_native <$> ns in
      let other_dlls := other_enabled_dlls ns1 target_native in
      let ns2 :=
        match other_dlls with
        | [] => alter (ModNative.set_load_before None) i ns1
        | _ =>
            alter (ModNative.set_load_before (Some (new_dep false <$> other_dlls)))
                  i ns1
        end in
      let ns3 := ensure_specific_dll_orders ns2 in
      let target_dll_name := dll_name_of target_native in
      (true, _optimize_force_load_dependencies ns3 target_dll_name)
  end.

(** The filter [update_load_dependencies] applies to one constraint list:
    a falsy list is left alone, a truthy one keeps the entries whose id is
    in the enabled set and becomes [None] when nothing is kept. *)
Definition filter_enabled_deps (enabled_ids : gset string)
    (l : option (list Dep)) : option (list Dep) :=
  if truthy l
  then or_None (filter (λ dep, dep_get_id dep ∈ enabled_ids) (items l))
  else l.

(** One iteration of the package loop of [update_load_dependencies]; only
    [load_after] is filtered. *)
Definition update_package_deps (enabled_package_ids : gset string)
    (pkg : ModPackage.t) : ModPackage.t :=
  ModPackage.set_load_after
    (filter_enabled_deps enabled_package_ids (ModPackage.load_after pkg)) pkg.

(** One iteration of the native loop: [load_before], then [load_after]. *)
Definition update_native_deps (enabled_native_ids : gset string)
    (native : ModNative.t) : ModNative.t :=
  let native1 :=
    ModNative.set_load_before
      (filter_enabled_deps enabled_native_ids (ModNative.load_before native))
      native in
  ModNative.set_load_after
    (filter_enabled_deps enabled_native_ids (ModNative.load_after native1))
    native1.

(** [update_load_dependencies()] *)
Definition update_load_dependencies (self : ModConfigManager) : ModConfigManager :=
  let enabled_package_ids : gset string :=
    list_to_set
      (ModPackage.id <$> filter (λ pkg, ModPackage.enabled pkg = true) (packages self)) in
  let enabled_native_ids : gset string :=
    list_to_set
      (dll_name_of <$> filter (λ native, ModNative.enabled native = true) (natives self)) in
  let ps := update_package_deps enabled_package_ids <$> packages self in
  let ns := update_native_deps enabled_native_ids <$> natives self in
  set_natives (ensure_specific_dll_orders ns) (set_packages ps self).
End natives.

(** ** Instances of the library functions, to run examples *)

(** The part of a path after its last ['/'] or ['\'] separator; on the
    separator-free names and the [dir/file] paths of the examples this is
    what [Path(p).name] returns. *)
Fixpoint basename_from (acc : string) (p : string) : string :=
  match p with
  | EmptyString => String.rev acc
  | String c p' =>
      if bool_decide (c = "/"%char) || bool_decide (c = "\"%char)
      then basename_from "" p'
      else basename_from (String c acc) p'
  end.

Definition basename (p : string) : string := basename_from "" p.

(** Lower-casing of the ASCII letters; other bytes are kept. *)
Definition ascii_lower_char (c : ascii) : ascii :=
  let n := nat_of_ascii c in
  if bool_decide (65 ≤ n)%nat && bool_decide (n ≤ 90)%nat
  then ascii_of_nat (n + 32) else c.

Fixpoint ascii_lower (s : string) : string :=
  match s with
  | EmptyString => EmptyString
  | String c s' => String (ascii_lower_char c) (ascii_lower s')
  end.

(** A native as [add_native] creates it, with [load_before] given. *)
Definition native_at (p : string) (en : bool) (lb : option (list Dep))
  : ModNative.t :=
  ModNative.mk p false en None None None lb false false "".

(** A package as [add_package] creates it, with [load_after] given. *)
Definition package_of (i : string) (en : bool) (la : option (list Dep))
  : ModPackage.t :=
  ModPackage.mk i (i +:+ "/") la None en false "".

(** ** Vocabulary of the statements *)

(** The entries of a constraint list whose id is [z]. *)
Definition edges_to (z : string) (lb : option (list Dep)) : list Dep :=
  filter (λ dep, dep_id dep = Some z) (items lb).

(** The native whose [load_before] [is_force_load_first_native] examines:
    the first one that matches the name and has a non-empty [load_before]. *)
Definition examined_native (path_name : string → string)
    (ns : list ModNative.t) (clean_name : string) : option (nat * ModNative.t) :=
  list_find
    (λ n, native_matches path_name clean_name n
          && truthy (ModNative.load_before n) = true) ns.

(** The optional removal of the reverse edge, as one function applied to
    every native. *)
Definition break_cycle (path_name : string → string) (ns : list ModNative.t)
    (first_dll_name second_dll_name : string)
  : ModNative.t → ModNative.t :=
  if _would_create_circular_dependency path_name ns first_dll_name second_dll_name
  then remove_dep_from path_name second_dll_name first_dll_name
  else id.

(** What one call may do to the native in a given slot: its path, enabled
    flag and [load_after] are kept, its [load_before] is never left as an
    empty list unless it was one, and every entry of its [load_before] is
    an old entry or names an enabled native. *)
Definition order_frame (path_name : string → string) (ns : list ModNative.t)
    (n n' : ModNative.t) : Prop :=
  ModNative.path n' = ModNative.path n
  ∧ ModNative.enabled n' = ModNative.enabled n
  ∧ ModNative.load_after n' = ModNative.load_after n
  ∧ (ModNative.load_before n' = Some [] → ModNative.load_before n = Some [])
  ∧ ∀ d, d ∈ items (ModNative.load_before n') →
         d ∈ items (ModNative.load_before n)
         ∨ ∃ m, m ∈ ns ∧ ModNative.enabled m = true
                ∧ dep_id d = Some (dll_name_of path_name m).

(** ** Further methods of the manager *)

Definition package_set_enabled (v : bool) (p : ModPackage.t) : ModPackage.t :=
  ModPackage.mk (ModPackage.id p) (ModPackage.source p) (ModPackage.load_after p)
    (ModPackage.load_before p) v (ModPackage.is_external p) (ModPackage.comment p).

Definition native_set_enabled (v : bool) (n : ModNative.t) : ModNative.t :=
  ModNative.mk (ModNative.path n) (ModNative.optional n) v
    (ModNative.initializer n) (ModNative.finalizer n) (ModNative.load_after n)
    (ModNative.load_before n) (ModNative.load_early n) (ModNative.is_external n)
    (ModNative.comment n).

Definition native_set_load_early (v : bool) (n : ModNative.t) : ModNative.t :=
  ModNative.mk (ModNative.path n) (ModNative.optional n) (ModNative.enabled n)
    (ModNative.initializer n) (ModNative.finalizer n) (ModNative.load_after n)
    (ModNative.load_before n) v (ModNative.is_external n) (ModNative.comment n).

(** [remove_package(package_id)]: [del self.packages[i]] at the first
    package with the id. *)
Definition remove_package (ps : list ModPackage.t) (package_id : string)
  : bool * list ModPackage.t :=
  match find_package ps (strip_external package_id) with
  | Some (i, _) => (true, delete i ps)
  | None => (false, ps)
  end.

(** [toggle_package(package_id)] *)
Definition toggle_package (ps : list ModPackage.t) (package_id : string)
  : bool * list ModPackage.t :=
  match find_package ps (strip_external package_id) with
  | Some (i, pkg) =>
      (true, alter (package_set_enabled (negb (ModPackage.enabled pkg))) i ps)
  | None => (false, ps)
  end.

(** [clear_force_load_last(mod_id)] *)
Definition clear_force_load_last (ps : list ModPackage.t) (mod_id : string)
  : bool * list ModPackage.t :=
  match find_package ps (strip_external mod_id) with
  | Some (i, _) => (true, alter (ModPackage.set_load_after None) i ps)
  | None => (false, ps)
  end.

(** [_rebuild_force_load_last_dependencies(mod_id)] *)
Definition _rebuild_force_load_last_dependencies (ps : list ModPackage.t)
    (mod_id : string) : list ModPackage.t :=
  let clean_id := strip_external mod_id in
  match find_package ps clean_id with
  | None => ps
  | Some (i, _) =>
      match other_enabled_mods ps clean_id with
      | [] => alter (ModPackage.set_load_after None) i ps
      | others =>
          alter (ModPackage.set_load_after (Some (new_dep true <$> others))) i ps
      end
  end.

(** The branch [is_native=False] of [add_to_load_dependencies]: the first
    enabled package with a truthy [load_after] that [is_force_load_last]
    recognises is rebuilt, and the loop stops. *)
Definition add_to_load_dependencies_package (ps : list ModPackage.t)
  : list ModPackage.t :=
  match list_find
          (λ pkg, ModPackage.enabled pkg
                  && truthy (ModPackage.load_after pkg)
                  && is_force_load_last ps (ModPackage.id pkg) = true) ps with
  | Some (_, pkg) => _rebuild_force_load_last_dependencies ps (ModPackage.id pkg)
  | None => ps
  end.

(** The match of [remove_native] and [toggle_native]:
    [native.path == clean_path or native.path == dll_path
     or native.path.endswith(clean_path)
     or (native.is_external and Path(native.path).name == clean_path)]. *)
Definition native_matches_removal (path_name : string → string)
    (dll_path : string) (n : ModNative.t) : bool :=
  let clean_path := strip_external dll_path in
  bool_decide (ModNative.path n = clean_path)
  || bool_decide (ModNative.path n = dll_path)
  || str_endswith (ModNative.path n) clean_path
  || (ModNative.is_external n
      && bool_decide (path_name (ModNative.path n) = clean_path)).

(** [remove_native(dll_path)] *)
Definition remove_native (path_name : string → string) (ns : list ModNative.t)
    (dll_path : string) : bool * list ModNative.t :=
  match list_find (λ n, native_matches_removal path_name dll_path n = true) ns with
  | Some (i, _) => (true, delete i ns)
  | None => (false, ns)
  end.

(** [toggle_native(dll_path)] *)
Definition toggle_native (path_name : string → string) (ns : list ModNative.t)
    (dll_path : string) : bool * list ModNative.t :=
  match list_find (λ n, native_matches_removal path_name dll_path n = true) ns with
  | Some (i, native) =>
      (true, alter (native_set_enabled (negb (ModNative.enabled native))) i ns)
  | None => (false, ns)
  end.

(** [set_native_load_early(dll_name, enabled)] *)
Definition set_native_load_early (path_name : string → string)
    (ns : list ModNative.t) (dll_name : string) (enabled : bool)
  : bool * list ModNative.t :=
  match find_native path_name ns (strip_external dll_name) with
  | Some (i, _) => (true, alter (native_set_load_early enabled) i ns)
  | None => (false, ns)
  end.

(** [is_native_load_early(dll_name)] *)
Definition is_native_load_early (path_name : string → string)
    (ns : list ModNative.t) (dll_name : string) : bool :=
  match find_native path_name ns (strip_external dll_name) with
  | Some (_, native) => ModNative.load_early native
  | None => false
  end.

(** [get_native_load_before(dll_name)] *)
Definition get_native_load_before (path_name : string → string)
    (ns : list ModNative.t) (dll_name : string) : option (list Dep) :=
  match find_native path_name ns (strip_external dll_name) with
  | Some (_, native) => ModNative.load_before native
  | None => None
  end.

(** [set_native_load_before(dll_name, target_dlls, optional)] *)
Definition set_native_load_before (path_name : string → string)
    (ns : list ModNative.t) (dll_name : string) (target_dlls : list string)
    (optional : bool) : bool * list ModNative.t :=
  match find_native path_name ns (strip_external dll_name) with
  | None => (false, ns)
  | Some (i, _) =>
      match target_dlls with
      | [] => (true, alter (ModNative.set_load_before None) i ns)
      | _ =>
          (true,
           alter (ModNative.set_load_before (Some (new_dep optional <$> target_dlls)))
                 i ns)
      end
  end.

(** [clear_native_load_before(dll_name)]; [clear_force_load_first_native]
    has the same body. *)
Definition clear_native_load_before (path_name : string → string)
    (ns : list ModNative.t) (dll_name : string) : bool * list ModNative.t :=
  match find_native path_name ns (strip_external dll_name) with
  | Some (i, _) => (true, alter (ModNative.set_load_before None) i ns)
  | None => (false, ns)
  end.

Definition clear_force_load_first_native (path_name : string → string)
    (ns : list ModNative.t) (dll_name : string) : bool * list ModNative.t :=
  match find_native path_name ns (strip_external dll_name) with
  | Some (i, _) => (true, alter (ModNative.set_load_before None) i ns)
  | None => (false, ns)
  end.


(** *** Version comparison *)

(** [s.lstrip('v')] *)
Fixpoint lstrip_v (s : string) : string :=
  match s with
  | String c s' => if bool_decide (c = "v"%char) then lstrip_v s' else s
  | EmptyString => EmptyString
  end.

(** [s.split('.')]; [cur] holds the current piece, reversed. *)
Fixpoint split_dot_from (cur : string) (s : string) : list string :=
  match s with
  | EmptyString => [String.rev cur]
  | String c s' =>
      if bool_decide (c = "."%char)
      then String.rev cur :: split_dot_from "" s'
      else split_dot_from (String c cur) s'
  end.

Definition split_dot (s : string) : list string := split_dot_from "" s.

(** [l.extend(['0'] * (max_len - len(l)))] *)
Definition pad_segments (max_len : nat) (l : list string) : list string :=
  l ++ replicate (max_len - List.length l) "0".

(** The comparison loop of [_compare_versions] over the padded segment
    lists; [to_int] is Python's [int], [None] standing for [ValueError], in
    which case the segment is skipped. *)
Fixpoint compare_segments (to_int : string → option Z) (l1 l2 : list string) : Z :=
  match l1, l2 with
  | s1 :: l1', s2 :: l2' =>
      match to_int s1, to_int s2 with
      | Some n1, Some n2 =>
          if bool_decide (n1 > n2)%Z then 1%Z
          else if bool_decide (n1 < n2)%Z then (-1)%Z
          else compare_segments to_int l1' l2'
      | _, _ => compare_segments to_int l1' l2'
      end
  | _, _ => 0%Z
  end.

(** [_compare_versions(v1, v2)] *)
Definition _compare_versions (to_int : string → option Z) (v1 v2 : string) : Z :=
  if bool_decide (v1 = "") || bool_decide (v2 = "")
  then
    if bool_decide (v1 = "") && bool_decide (v2 = "") then 0%Z
    else if bool_decide (v1 ≠ "") then 1%Z else (-1)%Z
  else
    let v1_clean := split_dot (lstrip_v v1) in
    let v2_clean := split_dot (lstrip_v v2) in
    let max_len := max (List.length v1_clean) (List.length v2_clean) in
    compare_segments to_int (pad_segments max_len v1_clean)
                     (pad_segments max_len v2_clean).

(** *** The comments *)

(** [set_mod_comment(mod_id, comment)] on the [mod_comments] dict;
    [set_native_comment] is the same on [native_comments].  [strip] is
    [str.strip]. *)
Definition set_mod_comment (strip : string → string)
    (mod_comments : gmap string string) (mod_id comment : string)
  : gmap string string :=
  if bool_decide (strip comment ≠ "")
  then <[mod_id := strip comment]> mod_comments
  else delete mod_id mod_comments.

(** [get_mod_comment(mod_id)] *)
Definition get_mod_comment (mod_comments : gmap string string) (mod_id : string)
  : string :=
  default "" (mod_comments !! mod_id).

(** The package the loop of [add_to_load_dependencies] stops at: the first
    enabled one with a truthy [load_after] that [is_force_load_last]
    recognises. *)
Definition force_last_holder (ps : list ModPackage.t)
  : option (nat * ModPackage.t) :=
  list_find
    (λ pkg, ModPackage.enabled pkg
            && truthy (ModPackage.load_after pkg)
            && is_force_load_last ps (ModPackage.id pkg) = true) ps.

(** A native with both constraint lists blanked: what is left is what no
    ordering method may change. *)
Definition native_core (n : ModNative.t) : ModNative.t :=
  ModNative.set_load_before None (ModNative.set_load_after None n).

(** Python's [int] on a non-empty string of ASCII digits, to run examples
    of the version comparison. *)
Fixpoint digits_value (acc : Z) (s : string) : option Z :=
  match s with
  | EmptyString => Some acc
  | String c s' =>
      let n := nat_of_ascii c in
      if bool_decide (48 ≤ n)%nat && bool_decide (n ≤ 57)%nat
      then digits_value (10 * acc + Z.of_nat (n - 48)) s'
      else None
  end.

Definition decimal_to_int (s : string) : option Z :=
  if bool_decide (s = "") then None else digits_value 0 s.

(** What the scans of natives by name look at. *)
Definition native_key (n : ModNative.t) : string * bool :=
  (ModNative.path n, ModNative.enabled n).

(** ** The string operations on small inputs *)

Example strip_external_suffix_decorated :
  strip_external_suffix "SeamlessCoop (外部)" = "SeamlessCoop".
Proof. reflexivity. Qed.

Example strip_external_everywhere : strip_external "a (外部)b (外部)" = "ab".
Proof. reflexivity. Qed.

Example strip_external_suffix_inner :
  strip_external_suffix "a (外部)b" = "a (外部)b".
Proof. reflexivity. Qed.

Example str_endswith_empty : str_endswith "nrsc.dll" "" = true.
Proof. reflexivity. Qed.

Example str_endswith_longer : str_endswith "x.dll" "ax.dll" = false.
Proof. reflexivity. Qed.

Example str_contains_fragment :
  str_contains "nrsc.dll" (ascii_lower "SeamlessCoop/NRSC.dll") = true.
Proof. reflexivity. Qed.

Example basename_of_path : basename "mods/sub/x.dll" = "x.dll".
Proof. reflexivity. Qed.

Example native_matches_suffix :
  native_matches basename "x.dll" (native_at "ax.dll" true None) = true.
Proof. reflexivity. Qed.

(** ** Facts about packages *)

Section package_facts.
Implicit Types (ps : list ModPackage.t) (p q x : ModPackage.t).

Lemma existsb_bool_decide {A} (P : A → Prop) `{!∀ a, Decision (P a)}
    (l : list A) :
  existsb (λ a, bool_decide (P a)) l = true ↔ ∃ a, a ∈ l ∧ P a.
Proof.
  induction l as [|a l IH]; simpl.
  - split; [done|]. intros (a & Ha & _). by apply not_elem_of_nil in Ha.
  - rewrite orb_true_iff, IH, bool_decide_eq_true. split.
    + intros [Ha|(b & Hb & HP)]; [exists a|exists b];
        split; auto; constructor; done.
    + intros (b & [->|Hb]%elem_of_cons & HP); [by left|right; eauto].
Qed.

Lemma find_package_Some ps c i x :
  find_package ps c = Some (i, x) →
  ps !! i = Some x ∧ ModPackage.id x = c.
Proof. intros (? & ? & _)%list_find_Some. done. Qed.

Lemma find_package_is_Some ps c :
  (∃ pkg, pkg ∈ ps ∧ ModPackage.id pkg = c) →
  ∃ i x, find_package ps c = Some (i, x).
Proof.
  intros (pkg & Hin & Hid).
  destruct (list_find_elem_of (λ p, ModPackage.id p = c) ps pkg Hin Hid)
    as [[i x] Hfind].
  by exists i, x.
Qed.

(** The ids and the enabled flags decide [other_enabled_mods]. *)
Lemma other_enabled_mods_fmap (f : ModPackage.t → ModPackage.t) ps c :
  (∀ p, ModPackage.id (f p) = ModPackage.id p) →
  (∀ p, ModPackage.enabled (f p) = ModPackage.enabled p) →
  other_enabled_mods (f <$> ps) c = other_enabled_mods ps c.
Proof.
  intros Hid Hen. unfold other_enabled_mods.
  induction ps as [|p ps IH]; [done|]. csimpl.
  rewrite !filter_cons, Hid, Hen.
  case_decide; csimpl; rewrite ?Hid; by rewrite IH.
Qed.

Lemma other_enabled_mods_alter (g : ModPackage.t → ModPackage.t) ps c i :
  (∀ p, ModPackage.id (g p) = ModPackage.id p) →
  (∀ p, ModPackage.enabled (g p) = ModPackage.enabled p) →
  other_enabled_mods (alter g i ps) c = other_enabled_mods ps c.
Proof.
  intros Hid Hen. unfold other_enabled_mods.
  revert i. induction ps as [|p ps IH]; intros [|i]; csimpl; try done.
  - rewrite !filter_cons, Hid, Hen. case_decide; csimpl; rewrite ?Hid; done.
  - rewrite !filter_cons. case_decide; csimpl; by rewrite IH.
Qed.

Lemma other_enabled_mods_elem ps c s :
  s ∈ other_enabled_mods ps c ↔
  ∃ q, q ∈ ps ∧ ModPackage.enabled q = true ∧ ModPackage.id q ≠ c
       ∧ ModPackage.id q = s.
Proof.
  unfold other_enabled_mods. rewrite list_elem_of_fmap. split.
  - intros (q & -> & [[Hen Hne] Hin]%list_elem_of_filter). by exists q.
  - intros (q & Hin & Hen & Hne & <-). exists q. split; [done|].
    apply list_elem_of_filter. done.
Qed.

(** Looking a package up again after updates that keep every id. *)
Lemma find_package_update (f g : ModPackage.t → ModPackage.t) ps c i x :
  (∀ p, ModPackage.id (f p) = ModPackage.id p) →
  (∀ p, ModPackage.id (g p) = ModPackage.id p) →
  find_package ps c = Some (i, x) →
  find_package (alter g i (f <$> ps)) c = Some (i, g (f x)).
Proof.
  intros Hf Hg (Hi & Hid & Hlt)%list_find_Some.
  apply list_find_Some. split_and!.
  - by rewrite list_lookup_alter_eq, list_lookup_fmap, Hi.
  - by rewrite Hg, Hf.
  - intros j y Hj Hji.
    rewrite list_lookup_alter_ne, list_lookup_fmap in Hj by lia.
    destruct (ps !! j) as [y0|] eqn:Hy0; simplify_eq/=.
    rewrite Hf. by eapply Hlt.
Qed.
End package_facts.

(** ** Force-last on packages *)

(** C2.  Whenever some package has the id X ([mod_id] without the
    decoration), [set_force_load_last] returns true.  The package it
    writes to is the first one of the collection whose id is X; it stays in
    its slot with its id and its other fields, and afterwards its
    [load_after] is the list of the ids of the other enabled packages (the
    enabled packages whose id is not X), in collection order, each as
    [{id, optional: true}], when there is such a package, and is absent
    when there is none. *)
Theorem set_force_load_last_sets_others (ps : list ModPackage.t) (mod_id : string) :
  let X := strip_external mod_id in
  let others :=
    ModPackage.id <$>
      filter (λ q, ModPackage.enabled q = true ∧ ModPackage.id q ≠ X) ps in
  (∃ pkg, pkg ∈ ps ∧ ModPackage.id pkg = X) →
  ∃ ps' i x x',
    set_force_load_last ps mod_id = (true, ps')
    ∧ ps !! i = Some x ∧ ModPackage.id x = X
    ∧ (∀ j y, ps !! j = Some y → (j < i)%nat → ModPackage.id y ≠ X)
    ∧ ps' !! i = Some x' ∧ ModPackage.id x' = X
    ∧ ModPackage.source x' = ModPackage.source x
    ∧ ModPackage.enabled x' = ModPackage.enabled x
    ∧ ModPackage.load_before x' = ModPackage.load_before x
    ∧ ModPackage.is_external x' = ModPackage.is_external x
    ∧ ModPackage.comment x' = ModPackage.comment x
    ∧ find_package ps' X = Some (i, x')
    ∧ ((∃ q, q ∈ ps ∧ ModPackage.enabled q = true ∧ ModPackage.id q ≠ X) →
       ModPackage.load_after x' = Some (new_dep true <$> others))
    ∧ ((∀ q, q ∈ ps → ModPackage.enabled q = true → ModPackage.id q = X) →
       ModPackage.load_after x' = None).
Proof.
  intros X others Hex.
  destruct (find_package_is_Some ps X Hex) as (i & x & Hfind).
  change others with (other_enabled_mods ps X). clear others.
  unfold set_force_load_last. fold X. rewrite Hfind.
  set (f := λ other_pkg, if bool_decide (other_pkg ≠ x)
                         then ModPackage.set_load_after None other_pkg
                         else other_pkg).
  assert (Hfid : ∀ p, ModPackage.id (f p) = ModPackage.id p)
    by (intros p; unfold f; by case_bool_decide).
  assert (Hfen : ∀ p, ModPackage.enabled (f p) = ModPackage.enabled p)
    by (intros p; unfold f; by case_bool_decide).
  assert (Hfx : f x = x) by (unfold f; by rewrite bool_decide_eq_false_2 by tauto).
  rewrite (other_enabled_mods_fmap f ps X Hfid Hfen).
  pose proof Hfind as (Hi & Hid & Hfirst)%list_find_Some.
  assert (∀ g, alter g i (f <$> ps) !! i = Some (g x)) as Hslot.
  { intros g. by rewrite list_lookup_alter_eq, list_lookup_fmap, Hi; simpl; rewrite Hfx. }
  assert (∀ g, (∀ p, ModPackage.id (g p) = ModPackage.id p) →
            find_package (alter g i (f <$> ps)) X = Some (i, g x)) as Hagain.
  { intros g Hg. rewrite (find_package_update f g ps X i x) by done.
    by rewrite Hfx. }
  destruct (other_enabled_mods ps X) as [|o os] eqn:Hothers.
  - eexists _, i, x, _. split; [done|].
    split_and!; [done|done|by eauto|apply Hslot|done..|by apply Hagain| |done].
    intros (q & Hq & Hen & Hne).
    assert (ModPackage.id q ∈ other_enabled_mods ps X) as Hin
      by (apply other_enabled_mods_elem; by exists q).
    rewrite Hothers in Hin. by apply not_elem_of_nil in Hin.
  - eexists _, i, x, _. split; [done|].
    split_and!; [done|done|by eauto|apply Hslot|done..|by apply Hagain|done|].
    intros Hall.
    assert (o ∈ other_enabled_mods ps X) as Hin
      by (rewrite Hothers; constructor).
    apply other_enabled_mods_elem in Hin as (q & Hq & Hen & Hne & _).
    by destruct Hne; apply Hall.
Qed.

(** The scenario of the specification: packages A, B, C enabled, force-last
    set on B. *)
Lemma set_force_load_last_sets_others_witness :
  ∃ ps' i x',
    set_force_load_last
      [package_of "A" true None; package_of "B" true None;
       package_of "C" true None] "B" = (true, ps')
    ∧ ps' !! i = Some x'
    ∧ ModPackage.id x' = "B"
    ∧ ModPackage.load_after x' = Some [new_dep true "A"; new_dep true "C"].
Proof.
  destruct (set_force_load_last_sets_others
              [package_of "A" true None; package_of "B" true None;
               package_of "C" true None] "B")
    as (ps' & i & x & x' & Hrun & _ & _ & _ & Hslot & Hid & _ & _ & _ & _ & _
        & _ & Hsome & _).
  - exists (package_of "B" true None). split; [|reflexivity].
    apply list_elem_of_further, list_elem_of_here.
  - exists ps', i, x'. split; [exact Hrun|]. split; [exact Hslot|].
    split; [exact Hid|].
    apply Hsome. exists (package_of "A" true None).
    split; [apply list_elem_of_here|]. split; [reflexivity|].
    vm_compute. discriminate.
Defined.

(** C10.  When the lookup of [mod_id] finds X, the call succeeds whatever
    X's enabled flag is, and every package that differs from X has its
    [load_after] set to absent, whatever it held and whether or not the
    package is enabled, with all its other fields kept. *)
Theorem set_force_load_last_clears_others (ps : list ModPackage.t)
    (mod_id : string) (i : nat) (x : ModPackage.t) :
  find_package ps (strip_external mod_id) = Some (i, x) →
  ∃ ps',
    set_force_load_last ps mod_id = (true, ps')
    ∧ List.length ps' = List.length ps
    ∧ ∀ j q, ps !! j = Some q → q ≠ x →
        ∃ q', ps' !! j = Some q'
              ∧ ModPackage.load_after q' = None
              ∧ ModPackage.id q' = ModPackage.id q
              ∧ ModPackage.source q' = ModPackage.source q
              ∧ ModPackage.enabled q' = ModPackage.enabled q
              ∧ ModPackage.load_before q' = ModPackage.load_before q
              ∧ ModPackage.is_external q' = ModPackage.is_external q
              ∧ ModPackage.comment q' = ModPackage.comment q.
Proof.
  intros Hfind. unfold set_force_load_last. rewrite Hfind.
  apply find_package_Some in Hfind as [Hi _].
  set (f := λ other_pkg, if bool_decide (other_pkg ≠ x)
                         then ModPackage.set_load_after None other_pkg
                         else other_pkg).
  assert (∀ g j q, ps !! j = Some q → q ≠ x →
            alter g i (f <$> ps) !! j
            = Some (ModPackage.set_load_after None q)) as Hframe.
  { intros g j q Hj Hne.
    assert (i ≠ j) by (intros ->; congruence).
    rewrite list_lookup_alter_ne, list_lookup_fmap, Hj by done.
    simpl. unfold f. by rewrite bool_decide_eq_true_2. }
  destruct (other_enabled_mods (f <$> ps)) as [|o os];
    (eexists; split; [done|]; split;
     [by rewrite length_alter, length_fmap|]);
    intros j q Hj Hne; eexists; (split; [by apply Hframe|done]).
Qed.

Lemma set_force_load_last_clears_others_witness :
  ∃ ps',
    set_force_load_last
      [package_of "A" false (Some [new_dep false "Z"]);
       package_of "B" false None] "B (外部)" = (true, ps')
    ∧ ∃ q', ps' !! 0 = Some q' ∧ ModPackage.load_after q' = None
            ∧ ModPackage.enabled q' = false.
Proof.
  destruct (set_force_load_last_clears_others
              [package_of "A" false (Some [new_dep false "Z"]);
               package_of "B" false None] "B (外部)" 1
              (package_of "B" false None))
    as (ps' & Hrun & _ & Hframe); [reflexivity|].
  exists ps'. split; [exact Hrun|].
  destruct (Hframe 0 (package_of "A" false (Some [new_dep false "Z"])))
    as (q' & Hq' & Hla & _ & _ & Hen & _); [reflexivity|discriminate|].
  exists q'. split; [exact Hq'|]. split; [exact Hla|exact Hen].
Defined.

(** C5.  Let X be the first package of the collection whose id is [mod_id]
    without the decoration, with a [load_after] that is not absent.  The
    other enabled packages are the packages that are enabled and whose id
    is not X's.  [is_force_load_last] is true exactly when the set of X's
    [load_after] ids meets the set of their ids in at least one id, if
    there are at most three such ids, and in at least half of them, if
    there are more. *)
Theorem is_force_load_last_threshold (ps : list ModPackage.t) (mod_id : string)
    (i : nat) (x : ModPackage.t) (l : list Dep) :
  let X := strip_external mod_id in
  let others : gset string :=
    list_to_set
      (ModPackage.id <$>
         filter (λ q, ModPackage.enabled q = true ∧ ModPackage.id q ≠ X) ps) in
  let targets : gset string := list_to_set (omap dep_id l) in
  ps !! i = Some x →
  ModPackage.id x = X →
  (∀ j y, ps !! j = Some y → (j < i)%nat → ModPackage.id y ≠ X) →
  ModPackage.load_after x = Some l →
  ((size others ≤ 3)%nat →
   (is_force_load_last ps mod_id = true ↔ (1 ≤ size (targets ∩ others))%nat))
  ∧ ((3 < size others)%nat →
     (is_force_load_last ps mod_id = true
      ↔ (size others ≤ 2 * size (targets ∩ others))%nat)).
Proof.
  intros X others targets Hi Hid Hfirst Hl.
  assert (find_package ps X = Some (i, x)) as Hfind
    by (apply list_find_Some; eauto).
  assert (size (targets ∩ others) ≤ size others)%nat as Hle
    by apply subseteq_size, intersection_subseteq_r.
  unfold is_force_load_last. fold X. rewrite Hfind, Hl.
  cbv zeta. unfold other_enabled_mods. fold others.
  destruct l as [|d l'].
  - assert (size (targets ∩ others) = 0%nat) as ->.
    { unfold targets. simpl. rewrite (left_absorb_L ∅ (∩)). apply size_empty. }
    simpl. split; intros ?; (split; [done|lia]).
  - change (items (Some (d :: l'))) with (d :: l'). fold targets.
    change (negb (truthy (Some (d :: l')))) with false. cbv iota.
    destruct (bool_decide_reflect (size others = 0%nat)) as [H0|H0];
      destruct (bool_decide_reflect (size others ≤ 3)%nat) as [H3|H3];
      rewrite ?bool_decide_eq_true;
      (split; intros ?; (split; [intros ?; try done; lia|intros ?; lia])).
Qed.

(** B names the enabled A, a package that does not exist, and not the
    enabled C; the disabled D does not count among the others. *)
Lemma is_force_load_last_threshold_witness :
  is_force_load_last
    [package_of "A" true None;
     package_of "B" true (Some [new_dep true "A"; new_dep true "Q"]);
     package_of "C" true None; package_of "D" false None] "B" = true.
Proof.
  destruct (is_force_load_last_threshold
              [package_of "A" true None;
               package_of "B" true (Some [new_dep true "A"; new_dep true "Q"]);
               package_of "C" true None; package_of "D" false None] "B" 1
              (package_of "B" true (Some [new_dep true "A"; new_dep true "Q"]))
              [new_dep true "A"; new_dep true "Q"])
    as [Hsmall _]; [reflexivity|reflexivity| |reflexivity|].
  - intros [|j] y Hy Hj; [|lia]. injection Hy as <-. vm_compute. discriminate.
  - apply Hsmall; vm_compute; repeat constructor.
Defined.

(** ** Facts about the lookups of natives *)

Section native_facts.
Variable path_name : string → string.
Implicit Types (ns : list ModNative.t) (n m : ModNative.t).

Local Abbreviation matches := (native_matches path_name).
Local Abbreviation locate := (locate_pair path_name).
Local Abbreviation name_of := (dll_name_of path_name).

(** The matches depend on the path only. *)
Lemma native_matches_path key n m :
  ModNative.path n = ModNative.path m →
  matches key n = matches key m.
Proof.
  intros Hp. unfold native_matches, dll_name_of.
  by rewrite Hp.
Qed.

Lemma locate_pair_paths f s ns ns' i acc :
  ModNative.path <$> ns = ModNative.path <$> ns' →
  locate f s ns i acc = locate f s ns' i acc.
Proof.
  revert ns' i acc. induction ns as [|n ns IH]; intros [|n' ns'] i acc Hp;
    simplify_eq/=; [done|].
  rewrite (native_matches_path f n n'), (native_matches_path s n n') by done.
  by apply IH.
Qed.

(** What the lookup loop of [set_specific_dll_order] returns: each
    component is the accumulator's or points into the scanned list. *)
Lemma locate_pair_fst f s ns i acc a b :
  locate f s ns i acc = (a, b) →
  (a = acc.1 ∧ ∀ n, n ∈ ns → matches f n = false)
  ∨ ∃ k n, a = Some (i + k) ∧ ns !! k = Some n ∧ matches f n = true.
Proof.
  revert i acc. induction ns as [|n ns IH]; intros i acc Hloc; simpl in Hloc.
  - left. simplify_eq. split; [done|]. intros n Hn.
    by apply not_elem_of_nil in Hn.
  - apply IH in Hloc as [[-> Hnone]|(k & n' & -> & Hk & Hm)].
    + destruct (matches f n) eqn:Hf.
      * right. exists 0, n. simpl. split; [f_equal; lia|done].
      * left. split; [by destruct (matches s n)|].
        by intros n' [->|?]%elem_of_cons; [|apply Hnone].
    + right. exists (S k), n'. split; [f_equal; lia|done].
Qed.

Lemma locate_pair_snd f s ns i acc a b :
  locate f s ns i acc = (a, b) →
  (b = acc.2
   ∧ ∀ n, n ∈ ns → matches f n = false → matches s n = false)
  ∨ ∃ k n, b = Some (i + k) ∧ ns !! k = Some n
           ∧ matches f n = false ∧ matches s n = true.
Proof.
  revert i acc. induction ns as [|n ns IH]; intros i acc Hloc; simpl in Hloc.
  - left. simplify_eq. split; [done|]. intros n Hn.
    by apply not_elem_of_nil in Hn.
  - apply IH in Hloc as [[-> Hnone]|(k & n' & -> & Hk & Hm)].
    + destruct (matches f n) eqn:Hf; [|destruct (matches s n) eqn:Hs].
      * left. split; [done|].
        intros n' [->|?]%elem_of_cons ?; [congruence|by apply Hnone].
      * right. exists 0, n. simpl. split; [f_equal; lia|done].
      * left. split; [done|].
        by intros n' [->|?]%elem_of_cons ?; [|apply Hnone].
    + right. exists (S k), n'. split; [f_equal; lia|done].
Qed.

Lemma locate_pair_Some f s ns i j :
  locate f s ns 0 (None, None) = (Some i, Some j) →
  ∃ a b, ns !! i = Some a ∧ ns !! j = Some b ∧ i ≠ j
         ∧ matches f a = true
         ∧ matches f b = false ∧ matches s b = true.
Proof.
  intros Hloc.
  destruct (locate_pair_fst _ _ _ _ _ _ _ Hloc)
    as [[? _]|(k & a & ? & Ha & Hfa)]; simplify_eq/=.
  destruct (locate_pair_snd _ _ _ _ _ _ _ Hloc)
    as [[? _]|(k' & b & ? & Hb & Hfb & Hsb)]; simplify_eq/=.
  exists a, b. split_and!; try done. intros ->. congruence.
Qed.
End native_facts.

(** ** Pairwise order: failure *)

(** C7.  [set_specific_dll_order] returns false and leaves the collection
    as it is whenever no native matches the first name, or no native
    matches the second name, or the lookup loop ends without one of the two
    natives, or one of the two natives it ends with is disabled. *)
Theorem set_specific_dll_order_failure (path_name : string → string)
    (ns : list ModNative.t) (first_dll second_dll : string) :
  let first_clean := strip_external first_dll in
  let second_clean := strip_external second_dll in
  let located := locate_pair path_name first_clean second_clean ns 0 (None, None) in
  (∀ n, n ∈ ns → native_matches path_name first_clean n = false)
  ∨ (∀ n, n ∈ ns → native_matches path_name second_clean n = false)
  ∨ located.1 = None
  ∨ located.2 = None
  ∨ (∃ i n, (located.1 = Some i ∨ located.2 = Some i)
            ∧ ns !! i = Some n ∧ ModNative.enabled n = false) →
  set_specific_dll_order path_name ns first_dll second_dll = (false, ns).
Proof.
  intros first_clean second_clean located Hcases.
  unfold set_specific_dll_order. fold first_clean second_clean located.
  destruct located as [a b] eqn:Hloc. unfold located in Hloc.
  pose proof (locate_pair_fst _ _ _ _ _ _ _ _ Hloc) as Hfst.
  pose proof (locate_pair_snd _ _ _ _ _ _ _ _ Hloc) as Hsnd.
  destruct a as [i|]; [|done]. destruct b as [j|]; [|done].
  destruct Hfst as [[? _]|(k & a & ? & Ha & Hfa)]; simplify_eq/=.
  destruct Hsnd as [[? _]|(k' & b & ? & Hb & Hfb & Hsb)]; simplify_eq/=.
  rewrite Ha, Hb.
  destruct Hcases as [Hno|[Hno|[?|[?|(i & n & Hi & Hn & Hen)]]]]; try done.
  - apply list_elem_of_lookup_2 in Ha. rewrite Hno in Hfa; done.
  - apply list_elem_of_lookup_2 in Hb. rewrite Hno in Hsb; done.
  - destruct Hi; simplify_eq; rewrite Hen; simpl; [done|].
    by rewrite orb_true_r.
Qed.

Lemma set_specific_dll_order_failure_witness :
  set_specific_dll_order basename
    [native_at "a.dll" true (Some [new_dep true "b.dll"]);
     native_at "mods/b.dll" false None] "a.dll" "b.dll"
  = (false,
     [native_at "a.dll" true (Some [new_dep true "b.dll"]);
      native_at "mods/b.dll" false None]).
Proof.
  apply (set_specific_dll_order_failure basename).
  right; right; right; right.
  exists 1, (native_at "mods/b.dll" false None).
  split; [right; reflexivity|]. split; reflexivity.
Defined.

(** ** Force-first detection *)


Lemma is_force_load_first_native_loop_spec (path_name : string → string)
    (all rest : list ModNative.t) (clean_name : string) :
  is_force_load_first_native_loop path_name all clean_name rest
  = match examined_native path_name rest clean_name with
    | Some (_, D) =>
        bool_decide
          (list_to_set (other_enabled_dlls path_name all D)
           ⊆@{gset string}
           list_to_set (dep_get_id <$> items (ModNative.load_before D)))
    | None => false
    end.
Proof.
  unfold examined_native. induction rest as [|n rest IH]; [done|]. csimpl.
  case_decide as Hn.
  - by rewrite Hn.
  - apply not_true_is_false in Hn. rewrite Hn, IH.
    by destruct (list_find _ rest) as [[]|].
Qed.

Lemma other_enabled_dlls_elem (path_name : string → string)
    (ns : list ModNative.t) (D : ModNative.t) (s : string) :
  s ∈ other_enabled_dlls path_name ns D ↔
  ∃ m, m ∈ ns ∧ ModNative.enabled m = true ∧ m ≠ D
       ∧ dll_name_of path_name m = s.
Proof.
  unfold other_enabled_dlls. rewrite list_elem_of_fmap. split.
  - intros (m & -> & [[Hen Hne] Hin]%list_elem_of_filter). by exists m.
  - intros (m & Hin & Hen & Hne & <-). exists m. split; [done|].
    by apply list_elem_of_filter.
Qed.

Lemma native_matches_spec (path_name : string → string) (key : string)
    (n : ModNative.t) :
  native_matches path_name key n = true
  ↔ path_name (ModNative.path n) = key
    ∨ ModNative.path n = key
    ∨ str_endswith (ModNative.path n) key = true.
Proof.
  unfold native_matches, dll_name_of.
  rewrite !orb_true_iff, !bool_decide_eq_true. tauto.
Qed.

Lemma truthy_spec {A} (l : option (list A)) :
  truthy l = false ↔ l = None ∨ l = Some [].
Proof.
  destruct l as [[|a l]|]; simpl; split; try done; auto; by intros [|].
Qed.

(** C4 fails as stated: the native named [x.dll] has no [load_before], and
    [is_force_load_first_native("x.dll")] is true all the same, because the
    lookup also accepts [ax.dll], whose path ends with the name and whose
    [load_before] names the only other enabled native. *)
Lemma is_force_load_first_native_suffix_match :
  let ns :=
    [native_at "x.dll" true None;
     native_at "ax.dll" true (Some [new_dep false "x.dll"])] in
  is_force_load_first_native basename ns "x.dll" = true
  ∧ filter (λ n, dll_name_of basename n = "x.dll") ns
    = [native_at "x.dll" true None]
  ∧ filter (λ n, ModNative.path n = "x.dll") ns
    = [native_at "x.dll" true None]
  ∧ ModNative.load_before (native_at "x.dll" true None) = None.
Proof. vm_compute. split_and!; reflexivity. Qed.

(** C4.  A native matches the name when its file name or its path is the
    name, or its path ends with it.  [is_force_load_first_native] returns
    true only if some matching native has a non-empty [load_before]; with D
    the first such native of the collection, the ids of D's [load_before]
    include the file name of every other enabled native.  The result is
    false as soon as the file name of one enabled native other than D is
    missing from D's ids, and when no matching native has a non-empty
    [load_before]. *)
Theorem is_force_load_first_native_superset (path_name : string → string)
    (ns : list ModNative.t) (dll_name : string) :
  let clean_name := strip_external dll_name in
  let matching := λ n,
    path_name (ModNative.path n) = clean_name
    ∨ ModNative.path n = clean_name
    ∨ str_endswith (ModNative.path n) clean_name = true in
  let unset := λ n,
    ModNative.load_before n = None ∨ ModNative.load_before n = Some [] in
  (is_force_load_first_native path_name ns dll_name = true →
   ∃ i D l,
     ns !! i = Some D
     ∧ matching D
     ∧ ModNative.load_before D = Some l ∧ l ≠ []
     ∧ (∀ j m, ns !! j = Some m → (j < i)%nat → matching m → unset m)
     ∧ ∀ m, m ∈ ns → ModNative.enabled m = true → m ≠ D →
            path_name (ModNative.path m) ∈ dep_get_id <$> l)
  ∧ (∀ i D l m,
       ns !! i = Some D →
       matching D →
       ModNative.load_before D = Some l → l ≠ [] →
       (∀ j m', ns !! j = Some m' → (j < i)%nat → matching m' → unset m') →
       m ∈ ns → ModNative.enabled m = true → m ≠ D →
       path_name (ModNative.path m) ∉ dep_get_id <$> l →
       is_force_load_first_native path_name ns dll_name = false)
  ∧ ((∀ m, m ∈ ns → matching m → unset m) →
     is_force_load_first_native path_name ns dll_name = false).
Proof.
  intros clean_name matching unset.
  assert (∀ n, native_matches path_name clean_name n = true ↔ matching n)
    as Hmatch by (intros n; apply native_matches_spec).
  assert (∀ n, truthy (ModNative.load_before n) = false ↔ unset n)
    as Hunset by (intros n; apply truthy_spec).
  assert (∀ i D,
            examined_native path_name ns clean_name = Some (i, D)
            ↔ ns !! i = Some D ∧ matching D
              ∧ truthy (ModNative.load_before D) = true
              ∧ ∀ j m, ns !! j = Some m → (j < i)%nat → matching m → unset m)
    as Hexamined.
  { intros i D. unfold examined_native. rewrite list_find_Some.
    rewrite andb_true_iff, Hmatch. split.
    - intros (Hi & [Hm Ht] & Hfirst). split_and!; try done.
      intros j m Hj Hlt Hmm. apply Hunset.
      specialize (Hfirst j m Hj Hlt). rewrite andb_true_iff, Hmatch in Hfirst.
      destruct (truthy (ModNative.load_before m)); [|done]. by destruct Hfirst.
    - intros (Hi & Hm & Ht & Hfirst). split_and!; try done.
      intros j m Hj Hlt. rewrite andb_true_iff, Hmatch. intros [Hmm Htm].
      apply (Hfirst j m Hj Hlt), Hunset in Hmm. congruence. }
  unfold is_force_load_first_native. fold clean_name.
  rewrite is_force_load_first_native_loop_spec. split_and!.
  - destruct (examined_native path_name ns clean_name) as [[i D]|] eqn:Hex;
      [|done].
    intros Hsub%bool_decide_eq_true.
    destruct (proj1 (Hexamined i D) eq_refl) as (Hi & Hm & Ht & Hfirst).
    destruct (ModNative.load_before D) as [[|d l]|] eqn:Hlb; try done.
    exists i, D, (d :: l). split_and!; try done.
    intros m Hin Hen Hne.
    assert (dll_name_of path_name m
            ∈@{gset string} list_to_set (other_enabled_dlls path_name ns D))
      as Hm' by (apply elem_of_list_to_set, other_enabled_dlls_elem; eauto).
    apply Hsub in Hm'. by apply elem_of_list_to_set in Hm'.
  - intros i D l m Hi Hm Hlb Hl Hfirst Hin Hen Hne Hmiss.
    assert (examined_native path_name ns clean_name = Some (i, D)) as ->.
    { apply Hexamined. split_and!; try done. rewrite Hlb. by destruct l. }
    apply bool_decide_eq_false. intros Hsub. apply Hmiss.
    assert (dll_name_of path_name m
            ∈@{gset string} list_to_set (other_enabled_dlls path_name ns D))
      as Hm' by (apply elem_of_list_to_set, other_enabled_dlls_elem; eauto).
    apply Hsub in Hm'. apply elem_of_list_to_set in Hm'. by rewrite Hlb in Hm'.
  - intros Hnone.
    destruct (examined_native path_name ns clean_name) as [[i D]|] eqn:Hex;
      [|done].
    destruct (proj1 (Hexamined i D) eq_refl) as (Hi & Hm & Ht & _).
    apply list_elem_of_lookup_2 in Hi.
    apply (Hnone D Hi), Hunset in Hm. congruence.
Qed.

(** With [z.dll] among the ids the result is true and the theorem yields
    the entry; without it the result is false; and the native [x.dll] of
    the third collection, which has no [load_before], is passed over. *)
Lemma is_force_load_first_native_superset_witness :
  (∃ i D l,
     [native_at "x.dll" true (Some [new_dep false "z.dll"; new_dep false "y.dll"]);
      native_at "y.dll" true None; native_at "z.dll" true None] !! i = Some D
     ∧ ModNative.load_before D = Some l
     ∧ "z.dll" ∈ dep_get_id <$> l)
  ∧ is_force_load_first_native basename
      [native_at "x.dll" true (Some [new_dep false "y.dll"]);
       native_at "y.dll" true None; native_at "z.dll" true None] "x.dll" = false
  ∧ is_force_load_first_native basename
      [native_at "x.dll" true None; native_at "y.dll" true None] "x.dll" = false.
Proof.
  split_and!.
  - destruct (proj1 (is_force_load_first_native_superset basename
             [native_at "x.dll" true
                (Some [new_dep false "z.dll"; new_dep false "y.dll"]);
              native_at "y.dll" true None; native_at "z.dll" true None] "x.dll"))
      as (i & D & l & Hi & Hm & Hlb & _ & _ & Hall); [vm_compute; reflexivity|].
    exists i, D, l. split; [exact Hi|]. split; [exact Hlb|].
    apply (Hall (native_at "z.dll" true None)).
    + apply list_elem_of_further, list_elem_of_further, list_elem_of_here.
    + reflexivity.
    + intros <-. vm_compute in Hlb. discriminate Hlb.
  - apply (proj1 (proj2 (is_force_load_first_native_superset basename
             [native_at "x.dll" true (Some [new_dep false "y.dll"]);
              native_at "y.dll" true None; native_at "z.dll" true None] "x.dll")))
      with (i := 0) (D := native_at "x.dll" true (Some [new_dep false "y.dll"]))
           (l := [new_dep false "y.dll"])
           (m := native_at "z.dll" true None).
    + reflexivity.
    + left. reflexivity.
    + reflexivity.
    + discriminate.
    + intros j m' _ Hj. lia.
    + apply list_elem_of_further, list_elem_of_further, list_elem_of_here.
    + reflexivity.
    + discriminate.
    + vm_compute. intros Hin. inversion Hin as [|? ? ? Hnil]. inversion Hnil.
  - apply (proj2 (proj2 (is_force_load_first_native_superset basename
             [native_at "x.dll" true None; native_at "y.dll" true None]
             "x.dll"))).
    intros m Hin Hm.
    apply elem_of_cons in Hin as [->|Hin]; [left; reflexivity|].
    apply elem_of_cons in Hin as [->|Hin]; [left; reflexivity|].
    by apply not_elem_of_nil in Hin.
Defined.

(** ** Adding entities *)



(** C9.  A successful [add_native] appends one native.  With the load_early
    argument false, its [load_early] is true when the lower-cased path (the
    path with the decoration stripped, which is [dll_path] itself unless
    [dll_path] ends with the decoration) contains both [seamlesscoop] and
    [nrsc.dll]; when the path does not contain both, its [load_early] is
    the argument. *)
Theorem add_native_load_early_default (str_lower : string → string)
    (self self' : ModConfigManager) (dll_path : string)
    (optional enabled load_early : bool) :
  let clean_path := strip_external_suffix dll_path in
  let is_core_library :=
    str_contains "seamlesscoop" (str_lower clean_path)
    && str_contains "nrsc.dll" (str_lower clean_path) in
  add_native str_lower self dll_path optional enabled load_early = (true, self') →
  (str_endswith dll_path EXTERNAL_MARK = false → clean_path = dll_path)
  ∧ ∃ native,
      natives self' = natives self ++ [native]
      ∧ (is_core_library = true → load_early = false →
         ModNative.load_early native = true)
      ∧ (is_core_library = false → ModNative.load_early native = load_early).
Proof.
  intros clean_path is_core_library. unfold add_native.
  change (if str_endswith dll_path EXTERNAL_MARK
          then strip_external dll_path else dll_path) with clean_path.
  destruct (existsb _ (natives self)); [discriminate|].
  intros [= <-]. split.
  - intros Hend. unfold clean_path, strip_external_suffix. by rewrite Hend.
  - eexists. split; [reflexivity|]. simpl. fold is_core_library.
    rewrite <-andb_assoc. fold is_core_library.
    split.
    + by intros -> ->.
    + intros ->. by rewrite andb_false_r.
Qed.

Lemma add_native_load_early_default_witness :
  ∃ native,
    (add_native ascii_lower (mkManager [] [] ∅ ∅)
       "SeamlessCoop/nrsc.dll" false true false).2
    = mkManager [] [native] ∅ ∅
    ∧ ModNative.load_early native = true.
Proof.
  destruct (add_native_load_early_default ascii_lower
              (mkManager [] [] ∅ ∅)
              (add_native ascii_lower (mkManager [] [] ∅ ∅)
                 "SeamlessCoop/nrsc.dll" false true false).2
              "SeamlessCoop/nrsc.dll" false true false)
    as (_ & native & Hns & Hearly & _); [reflexivity|].
  exists native. split.
  - vm_compute in Hns. injection Hns as <-. reflexivity.
  - apply Hearly; reflexivity.
Defined.

(** ** Facts about constraint lists *)


Lemma items_or_None {A} (l : list A) : items (or_None l) = l.
Proof. by destruct l. Qed.

Lemma truthy_items {A} (l : option (list A)) : truthy l = false → items l = [].
Proof. by destruct l as [[|]|]. Qed.

Lemma edges_to_elem z lb d :
  d ∈ edges_to z lb ↔ d ∈ items lb ∧ dep_id d = Some z.
Proof. unfold edges_to. rewrite list_elem_of_filter. tauto. Qed.

Lemma has_dep_on_edges z lb : has_dep_on z lb = true ↔ edges_to z lb ≠ [].
Proof.
  unfold has_dep_on. rewrite existsb_bool_decide. split.
  - intros (d & Hd & Hz) Hnil.
    assert (d ∈ edges_to z lb) as Hin by by apply edges_to_elem.
    rewrite Hnil in Hin. by apply not_elem_of_nil in Hin.
  - intros Hne. destruct (edges_to z lb) as [|d l] eqn:He; [done|].
    assert (d ∈ edges_to z lb) as Hin by (rewrite He; constructor).
    apply edges_to_elem in Hin. by exists d.
Qed.

Lemma edges_to_truthy z lb : edges_to z lb ≠ [] → truthy lb = true.
Proof. by destruct lb as [[|]|]. Qed.

(** *** The appended edge *)

Lemma add_edge_path s n : ModNative.path (add_edge s n) = ModNative.path n.
Proof. unfold add_edge. by destruct (has_dep_on _ _). Qed.

Lemma add_edge_enabled s n :
  ModNative.enabled (add_edge s n) = ModNative.enabled n.
Proof. unfold add_edge. by destruct (has_dep_on _ _). Qed.

Lemma add_edge_load_after s n :
  ModNative.load_after (add_edge s n) = ModNative.load_after n.
Proof. unfold add_edge. by destruct (has_dep_on _ _). Qed.

Lemma add_edge_name (path_name : string → string) s n :
  dll_name_of path_name (add_edge s n) = dll_name_of path_name n.
Proof. unfold dll_name_of. by rewrite add_edge_path. Qed.

Lemma add_edge_load_before s n :
  ModNative.load_before (add_edge s n)
  = Some (if has_dep_on s (ModNative.load_before n)
          then items (ModNative.load_before n)
          else items (ModNative.load_before n) ++ [new_dep false s]).
Proof.
  unfold add_edge, has_dep_on.
  destruct (ModNative.load_before n) as [[|d l]|]; simpl; try done.
  by destruct (_ || _).
Qed.

Lemma add_edge_not_empty s n : ModNative.load_before (add_edge s n) ≠ Some [].
Proof.
  rewrite add_edge_load_before.
  destruct (has_dep_on s _) eqn:Hdep.
  - apply has_dep_on_edges, edges_to_truthy in Hdep.
    by destruct (ModNative.load_before n) as [[|]|].
  - intros [= H]. by apply app_nil in H as [_ ?].
Qed.

Lemma add_edge_items s n d :
  d ∈ items (ModNative.load_before (add_edge s n)) →
  d ∈ items (ModNative.load_before n) ∨ d = new_dep false s.
Proof.
  rewrite add_edge_load_before. simpl.
  destruct (has_dep_on s _); [by left|].
  intros [?|Hd%list_elem_of_singleton]%elem_of_app; [by left|by right].
Qed.

Lemma add_edge_edges s z n :
  edges_to z (ModNative.load_before (add_edge s n))
  = if bool_decide (z = s)
    then match edges_to s (ModNative.load_before n) with
         | [] => [new_dep false s]
         | es => es
         end
    else edges_to z (ModNative.load_before n).
Proof.
  rewrite add_edge_load_before.
  destruct (has_dep_on s _) eqn:Hdep.
  - apply has_dep_on_edges in Hdep. case_bool_decide as Hz; [|done].
    subst z. by destruct (edges_to s _).
  - assert (edges_to s (ModNative.load_before n) = []) as Hnil.
    { destruct (edges_to s _) eqn:He; [done|].
      assert (has_dep_on s (ModNative.load_before n) = true)
        by (apply has_dep_on_edges; by rewrite He).
      congruence. }
    unfold edges_to in *. simpl. rewrite filter_app.
    case_bool_decide as Hz.
    + subst z. rewrite Hnil. simpl. rewrite filter_cons.
      by case_decide.
    + rewrite filter_cons, filter_nil.
      case_decide as Hd; [|by rewrite app_nil_r].
      simpl in Hd. congruence.
Qed.

Section edge_facts.
Variable path_name : string → string.
Implicit Types (ns : list ModNative.t) (n m : ModNative.t).

Local Abbreviation name_of := (dll_name_of path_name).
Local Abbreviation depends_on := (_dll_depends_on path_name).
Local Abbreviation remove_from := (remove_dep_from path_name).

Lemma depends_on_spec ns dll target :
  depends_on ns dll target = true ↔
  ∃ n, n ∈ ns ∧ ModNative.enabled n = true ∧ name_of n = dll
       ∧ edges_to target (ModNative.load_before n) ≠ [].
Proof.
  unfold _dll_depends_on. rewrite existsb_exists. split.
  - intros (n & Hin%list_elem_of_In & H).
    apply andb_true_iff in H as [H Hdep].
    apply andb_true_iff in H as [H _].
    apply andb_true_iff in H as [Hen Hname%bool_decide_eq_true].
    exists n. split_and!; try done. by apply has_dep_on_edges.
  - intros (n & Hin & Hen & Hname & Hdep). exists n.
    split; [by apply list_elem_of_In|].
    rewrite Hen, (bool_decide_eq_true_2 _ Hname),
      (edges_to_truthy _ _ Hdep). simpl. by apply has_dep_on_edges.
Qed.

(** *** One iteration of the removal *)

Lemma remove_from_path fr to n :
  ModNative.path (remove_from fr to n) = ModNative.path n.
Proof. unfold remove_dep_from. by destruct (_ && _). Qed.

Lemma remove_from_enabled fr to n :
  ModNative.enabled (remove_from fr to n) = ModNative.enabled n.
Proof. unfold remove_dep_from. by destruct (_ && _). Qed.

Lemma remove_from_load_after fr to n :
  ModNative.load_after (remove_from fr to n) = ModNative.load_after n.
Proof. unfold remove_dep_from. by destruct (_ && _). Qed.

Lemma remove_from_name fr to n : name_of (remove_from fr to n) = name_of n.
Proof. unfold dll_name_of. by rewrite remove_from_path. Qed.

Lemma remove_from_items fr to n d :
  d ∈ items (ModNative.load_before (remove_from fr to n)) →
  d ∈ items (ModNative.load_before n).
Proof.
  unfold remove_dep_from. destruct (_ && _); [|done]. simpl.
  rewrite items_or_None. by intros [_ ?]%list_elem_of_filter.
Qed.

Lemma remove_from_not_emptied fr to n :
  ModNative.load_before (remove_from fr to n) = Some [] →
  ModNative.load_before n = Some [].
Proof.
  unfold remove_dep_from. destruct (_ && _); [|done]. simpl.
  by destruct (filter _ _).
Qed.

Lemma remove_from_edges fr to z n :
  edges_to z (ModNative.load_before (remove_from fr to n))
  = if ModNative.enabled n && bool_decide (name_of n = fr)
       && bool_decide (z = to)
    then [] else edges_to z (ModNative.load_before n).
Proof.
  unfold remove_dep_from, edges_to.
  destruct (ModNative.enabled n); simpl; [|done].
  case_bool_decide as Hname; simpl; [|done].
  destruct (truthy (ModNative.load_before n)) eqn:Ht; simpl.
  - rewrite items_or_None, list_filter_filter.
    case_bool_decide as Hz.
    + subst z. induction (items (ModNative.load_before n)) as [|d l IH];
        [done|]. rewrite filter_cons. case_decide as Hd; [|done].
      by destruct Hd as [-> []].
    + apply list_filter_iff. intros d. split; [tauto|].
      intros Hd. split; [done|]. congruence.
  - rewrite (truthy_items _ Ht). by case_bool_decide.
Qed.

End edge_facts.

(** ** What [set_specific_dll_order] does to the collection *)

Section order_facts.
Variable path_name : string → string.
Implicit Types (ns : list ModNative.t) (n m : ModNative.t).

Local Abbreviation name_of := (dll_name_of path_name).
Local Abbreviation depends_on := (_dll_depends_on path_name).
Local Abbreviation remove_from := (remove_dep_from path_name).
Local Abbreviation locate := (locate_pair path_name).
Local Abbreviation set_order := (set_specific_dll_order path_name).


Lemma set_order_success ns first_dll second_dll i j a b :
  locate (strip_external first_dll) (strip_external second_dll) ns 0 (None, None)
  = (Some i, Some j) →
  ns !! i = Some a → ns !! j = Some b →
  ModNative.enabled a = true → ModNative.enabled b = true →
  set_order ns first_dll second_dll
  = (true,
     alter (add_edge (name_of b)) i
           (break_cycle path_name ns (name_of a) (name_of b) <$> ns)).
Proof.
  intros Hloc Ha Hb Hena Henb. unfold set_specific_dll_order, break_cycle.
  rewrite Hloc, Ha, Hb, Hena, Henb. simpl.
  destruct (_would_create_circular_dependency _ _ _ _); [done|].
  by rewrite list_fmap_id.
Qed.

(** Either nothing changes, or the call succeeds as above. *)
Lemma set_order_cases ns first_dll second_dll :
  (set_order ns first_dll second_dll).2 = ns
  ∨ ∃ i j a b,
      ns !! i = Some a ∧ ns !! j = Some b
      ∧ ModNative.enabled b = true
      ∧ (set_order ns first_dll second_dll).2
        = alter (add_edge (name_of b)) i
                (break_cycle path_name ns (name_of a) (name_of b) <$> ns).
Proof.
  destruct (locate (strip_external first_dll) (strip_external second_dll)
              ns 0 (None, None)) as [[i|] [j|]] eqn:Hloc;
    try (left; unfold set_specific_dll_order; by rewrite Hloc).
  destruct (locate_pair_Some _ _ _ _ _ _ Hloc) as (a & b & Ha & Hb & _).
  destruct (ModNative.enabled a) eqn:Hena, (ModNative.enabled b) eqn:Henb;
    try (left; unfold set_specific_dll_order;
         by rewrite Hloc, Ha, Hb, Hena, Henb).
  right. exists i, j, a, b. split_and!; try done.
  by rewrite (set_order_success _ _ _ _ _ _ _ Hloc Ha Hb Hena Henb).
Qed.


Lemma order_frame_refl ns n : order_frame path_name ns n n.
Proof. unfold order_frame. split_and!; auto. Qed.

Lemma break_cycle_frame ns f s n : order_frame path_name ns n (break_cycle path_name ns f s n).
Proof.
  unfold break_cycle. destruct (_would_create_circular_dependency _ _ _ _);
    [|apply order_frame_refl].
  split_and!.
  - apply remove_from_path.
  - apply remove_from_enabled.
  - apply remove_from_load_after.
  - apply remove_from_not_emptied.
  - intros d Hd. left. by eapply remove_from_items.
Qed.

Lemma set_order_frame ns first_dll second_dll k n' :
  (set_order ns first_dll second_dll).2 !! k = Some n' →
  ∃ n, ns !! k = Some n ∧ order_frame path_name ns n n'.
Proof.
  destruct (set_order_cases ns first_dll second_dll)
    as [->|(i & j & a & b & Ha & Hb & Henb & ->)].
  - intros Hk. exists n'. split; [done|apply order_frame_refl].
  - intros Hk. destruct (decide (i = k)) as [->|Hne].
    + rewrite list_lookup_alter_eq, list_lookup_fmap, Ha in Hk.
      simplify_eq/=. exists a. split; [done|].
      destruct (break_cycle_frame ns (name_of a) (name_of b) a)
        as (Hp & He & Hla & Hemp & Hit).
      split_and!.
      * by rewrite add_edge_path.
      * by rewrite add_edge_enabled.
      * by rewrite add_edge_load_after.
      * intros Hnil. by apply add_edge_not_empty in Hnil.
      * intros d [Hd| ->]%add_edge_items; [by apply Hit|].
        right. exists b. split_and!; try done.
        by eapply list_elem_of_lookup_2.
    + rewrite list_lookup_alter_ne, list_lookup_fmap in Hk by done.
      destruct (ns !! k) as [n|] eqn:Hn; simplify_eq/=.
      exists n. split; [done|apply break_cycle_frame].
Qed.

Lemma set_order_length ns first_dll second_dll :
  List.length (set_order ns first_dll second_dll).2 = List.length ns.
Proof.
  destruct (set_order_cases ns first_dll second_dll)
    as [->|(i & j & a & b & _ & _ & _ & ->)]; [done|].
  by rewrite length_alter, length_fmap.
Qed.

(** The table holds one pair, so [ensure_specific_dll_orders] is at most
    one call of [set_specific_dll_order]. *)
Lemma ensure_frame ns k n' :
  ensure_specific_dll_orders path_name ns !! k = Some n' →
  ∃ n, ns !! k = Some n ∧ order_frame path_name ns n n'.
Proof.
  unfold ensure_specific_dll_orders, specific_orders. simpl.
  destruct (both_enabled path_name ns _ _) as [[|] [|]];
    try (intros Hk; exists n'; split; [done|apply order_frame_refl]).
  apply set_order_frame.
Qed.

Lemma ensure_length ns :
  List.length (ensure_specific_dll_orders path_name ns) = List.length ns.
Proof.
  unfold ensure_specific_dll_orders, specific_orders. simpl.
  destruct (both_enabled path_name ns _ _) as [[|] [|]]; try done.
  apply set_order_length.
Qed.

Lemma ensure_lookup ns k n :
  ns !! k = Some n →
  ∃ n', ensure_specific_dll_orders path_name ns !! k = Some n'
        ∧ order_frame path_name ns n n'.
Proof.
  intros Hk.
  destruct (ensure_specific_dll_orders path_name ns !! k) as [n'|] eqn:Hk'.
  - exists n'. split; [done|].
    destruct (ensure_frame _ _ _ Hk') as (n0 & Hn0 & Hfr). by simplify_eq.
  - apply lookup_ge_None in Hk'. apply lookup_lt_Some in Hk.
    rewrite ensure_length in Hk'. lia.
Qed.

Lemma ensure_paths ns :
  ModNative.path <$> ensure_specific_dll_orders path_name ns
  = ModNative.path <$> ns.
Proof.
  apply list_eq. intros k. rewrite !list_lookup_fmap.
  destruct (ns !! k) as [n|] eqn:Hk.
  - destruct (ensure_lookup _ _ _ Hk) as (n' & -> & Hp & _). simpl.
    by rewrite Hp.
  - apply lookup_ge_None in Hk. rewrite <-ensure_length in Hk.
    apply lookup_ge_None in Hk. by rewrite Hk.
Qed.
End order_facts.


(** ** Reconciliation *)

Section update_facts.
Variable path_name : string → string.
Implicit Types (ns : list ModNative.t) (n m : ModNative.t).

Local Abbreviation name_of := (dll_name_of path_name).

Lemma filter_enabled_deps_items (S : gset string) l d :
  d ∈ items (filter_enabled_deps S l) → dep_get_id d ∈ S.
Proof.
  unfold filter_enabled_deps. destruct (truthy l) eqn:Ht.
  - rewrite items_or_None. by intros [? _]%list_elem_of_filter.
  - rewrite (truthy_items _ Ht). by intros ?%not_elem_of_nil.
Qed.

Lemma filter_enabled_deps_not_emptied (S : gset string) l :
  filter_enabled_deps S l = Some [] → l = Some [].
Proof.
  unfold filter_enabled_deps. destruct (truthy l) eqn:Ht; [|done].
  by destruct (filter _ _).
Qed.

Lemma enabled_package_ids_elem (ps : list ModPackage.t) s :
  s ∈@{gset string}
    list_to_set (ModPackage.id <$> filter (λ pkg, ModPackage.enabled pkg = true) ps) →
  ∃ p, p ∈ ps ∧ ModPackage.enabled p = true ∧ ModPackage.id p = s.
Proof.
  rewrite elem_of_list_to_set, list_elem_of_fmap.
  intros (p & -> & [Hen Hin]%list_elem_of_filter). by exists p.
Qed.

Lemma enabled_native_ids_elem ns s :
  s ∈@{gset string}
    list_to_set (name_of <$> filter (λ native, ModNative.enabled native = true) ns) →
  ∃ n, n ∈ ns ∧ ModNative.enabled n = true ∧ name_of n = s.
Proof.
  rewrite elem_of_list_to_set, list_elem_of_fmap.
  intros (n & -> & [Hen Hin]%list_elem_of_filter). by exists n.
Qed.

(** After the filtering and the re-applied fixed rule, every entry of a
    native's [load_before] or [load_after] names an enabled native of the
    resulting collection. *)
Lemma update_natives_targets_enabled ns S q d :
  S = list_to_set (name_of <$> filter (λ native, ModNative.enabled native = true) ns) →
  q ∈ ensure_specific_dll_orders path_name (update_native_deps S <$> ns) →
  d ∈ items (ModNative.load_before q) ∨ d ∈ items (ModNative.load_after q) →
  ∃ m, m ∈ ensure_specific_dll_orders path_name (update_native_deps S <$> ns)
       ∧ ModNative.enabled m = true
       ∧ (name_of m = dep_get_id d ∨ dep_id d = Some (name_of m)).
Proof.
  intros HS [k Hk]%list_elem_of_lookup_1 Hd.
  set (ns1 := update_native_deps S <$> ns) in *.
  destruct (ensure_frame _ _ _ _ Hk) as (q1 & Hq1 & _ & _ & Hla & _ & Hlb).
  assert (∃ m1, m1 ∈ ns1 ∧ ModNative.enabled m1 = true
                ∧ (name_of m1 = dep_get_id d ∨ dep_id d = Some (name_of m1)))
    as (m1 & [k1 Hk1]%list_elem_of_lookup_1 & Hen1 & Hname1).
  { assert (dep_get_id d ∈ S →
            ∃ m1, m1 ∈ ns1 ∧ ModNative.enabled m1 = true
                  ∧ (name_of m1 = dep_get_id d ∨ dep_id d = Some (name_of m1)))
      as Hold.
    { rewrite HS. intros (m0 & Hm0 & Hen0 & Hname0)%enabled_native_ids_elem.
      exists (update_native_deps S m0). split_and!; [|done|by left].
      by apply list_elem_of_fmap_2. }
    unfold ns1 in Hq1.
    apply list_lookup_fmap_Some in Hq1 as (q0 & -> & Hq0).
    destruct Hd as [Hd|Hd].
    - destruct (Hlb _ Hd) as [Hd'|(m & Hm & Hen & Hid)].
      + apply Hold. simpl in Hd'. by eapply filter_enabled_deps_items.
      + exists m. split_and!; [done..|by right].
    - rewrite Hla in Hd. simpl in Hd. apply Hold.
      by eapply filter_enabled_deps_items. }
  destruct (ensure_lookup path_name _ _ _ Hk1) as (m & Hm & Hp & Hen & _).
  exists m. split_and!.
  - by eapply list_elem_of_lookup_2.
  - by rewrite Hen.
  - unfold dll_name_of in *. by rewrite Hp.
Qed.
End update_facts.

(** C1 (as amended).  After [update_load_dependencies], take an entity that
    is disabled and whose identifier (package id, native file name) is not
    the identifier of an enabled entity of its kind: no package's
    [load_after] and no native's [load_before] or [load_after] holds a
    constraint with that id.  None of these lists is left empty by the
    call: a list that is empty afterwards was the empty list before. *)
Theorem update_load_dependencies_purges (path_name : string → string)
    (self : ModConfigManager) :
  let self' := update_load_dependencies path_name self in
  (∀ E q l d,
     E ∈ packages self' → ModPackage.enabled E = false →
     (∀ p, p ∈ packages self' → ModPackage.enabled p = true →
           ModPackage.id p ≠ ModPackage.id E) →
     q ∈ packages self' → ModPackage.load_after q = Some l → d ∈ l →
     dep_id d ≠ Some (ModPackage.id E))
  ∧ (∀ E q l d,
       E ∈ natives self' → ModNative.enabled E = false →
       (∀ n, n ∈ natives self' → ModNative.enabled n = true →
             dll_name_of path_name n ≠ dll_name_of path_name E) →
       q ∈ natives self' →
       ModNative.load_before q = Some l ∨ ModNative.load_after q = Some l →
       d ∈ l →
       dep_id d ≠ Some (dll_name_of path_name E))
  ∧ (∀ k p p',
       packages self !! k = Some p → packages self' !! k = Some p' →
       ModPackage.load_after p' = Some [] → ModPackage.load_after p = Some [])
  ∧ (∀ k n n',
       natives self !! k = Some n → natives self' !! k = Some n' →
       (ModNative.load_before n' = Some [] → ModNative.load_before n = Some [])
       ∧ (ModNative.load_after n' = Some [] → ModNative.load_after n = Some [])).
Proof.
  intros self'. unfold self', update_load_dependencies. simpl.
  set (Sp := list_to_set (ModPackage.id <$> _) : gset string).
  set (Sn := list_to_set (dll_name_of path_name <$> _) : gset string).
  split_and!.
  - intros E q l d _ _ Hfree (q0 & -> & Hq0)%list_elem_of_fmap Hl Hd Hid.
    simpl in Hl.
    assert (dep_get_id d ∈ Sp) as (p1 & Hp1 & Hen1 & Hid1)%enabled_package_ids_elem.
    { apply (filter_enabled_deps_items _ (ModPackage.load_after q0)).
      by rewrite Hl. }
    apply (Hfree (update_package_deps Sp p1)); [by apply list_elem_of_fmap_2|done|].
    simpl. rewrite Hid1. unfold dep_get_id. by rewrite Hid.
  - intros E q l d _ _ Hfree Hq Hl Hd Hid.
    destruct (update_natives_targets_enabled path_name (natives self) Sn q d)
      as (m & Hm & Hen & Hname); [done|done| |].
    { destruct Hl as [-> | ->]; [by left|by right]. }
    apply (Hfree m Hm Hen).
    destruct Hname as [->|Hname]; [|congruence].
    unfold dep_get_id. by rewrite Hid.
  - intros k p p' Hp. rewrite list_lookup_fmap, Hp. intros [= <-]. simpl.
    apply filter_enabled_deps_not_emptied.
  - intros k n n' Hn Hn'.
    destruct (ensure_frame _ _ _ _ Hn') as (n1 & Hn1 & _ & _ & Hla & Hemp & _).
    rewrite list_lookup_fmap, Hn in Hn1. simplify_eq/=. split.
    + intros H%Hemp. simpl in H. by apply filter_enabled_deps_not_emptied in H.
    + rewrite Hla. simpl. apply filter_enabled_deps_not_emptied.
Qed.

Lemma update_load_dependencies_purges_witness :
  dep_id (new_dep true "A") ≠ Some "C".
Proof.
  apply (proj1 (update_load_dependencies_purges basename
                  (mkManager
                     [package_of "A" true None;
                      package_of "B" true
                        (Some [new_dep true "A"; new_dep true "C"]);
                      package_of "C" false None] [] ∅ ∅))
           (package_of "C" false None)
           (package_of "B" true (Some [new_dep true "A"]))
           [new_dep true "A"] (new_dep true "A")).
  - vm_compute. apply list_elem_of_further, list_elem_of_further, list_elem_of_here.
  - reflexivity.
  - intros p Hp Hen Hid. vm_compute in Hp.
    inversion Hp as [|? ? ? Hp1]; subst; [vm_compute in Hid; discriminate Hid|].
    inversion Hp1 as [|? ? ? Hp2]; subst; [vm_compute in Hid; discriminate Hid|].
    inversion Hp2 as [|? ? ? Hp3]; subst; [vm_compute in Hen; discriminate Hen|].
    inversion Hp3.
  - vm_compute. apply list_elem_of_further, list_elem_of_here.
  - reflexivity.
  - apply list_elem_of_here.
Defined.

(** C1 fails as stated: a disabled native whose file name is shared with an
    enabled one stays referenced, because the filter keeps every id found
    in the set of enabled names. *)
Lemma update_load_dependencies_keeps_shared_name :
  let self :=
    mkManager []
      [native_at "a/x.dll" true None; native_at "b/x.dll" false None;
       native_at "y.dll" true (Some [new_dep true "x.dll"])] ∅ ∅ in
  let self' := update_load_dependencies basename self in
  ∃ E q d,
    E ∈ natives self' ∧ ModNative.enabled E = false
    ∧ q ∈ natives self' ∧ d ∈ items (ModNative.load_before q)
    ∧ dep_id d = Some (dll_name_of basename E).
Proof.
  exists (native_at "b/x.dll" false None),
         (native_at "y.dll" true (Some [new_dep true "x.dll"])),
         (new_dep true "x.dll").
  vm_compute. split_and!; try reflexivity.
  - apply list_elem_of_further, list_elem_of_here.
  - apply list_elem_of_further, list_elem_of_further, list_elem_of_here.
  - apply list_elem_of_here.
Qed.

(** The package loop filters [load_after] only: a package's [load_before]
    keeps an entry on a disabled package. *)
Lemma update_load_dependencies_package_load_before :
  packages
    (update_load_dependencies basename
       (mkManager
          [package_of "A" false None;
           ModPackage.mk "B" "B/" None (Some [new_dep true "A"]) true false ""]
          [] ∅ ∅))
  = [package_of "A" false None;
     ModPackage.mk "B" "B/" None (Some [new_dep true "A"]) true false ""].
Proof. vm_compute. reflexivity. Qed.

(** ** Pairwise order: the last request wins *)

Section last_wins.
Variable path_name : string → string.
Implicit Types (ns : list ModNative.t) (n m : ModNative.t).

Local Abbreviation name_of := (dll_name_of path_name).
Local Abbreviation depends_on := (_dll_depends_on path_name).
Local Abbreviation remove_from := (remove_dep_from path_name).
Local Abbreviation locate := (locate_pair path_name).
Local Abbreviation set_order := (set_specific_dll_order path_name).

Lemma set_order_paths ns first_dll second_dll :
  ModNative.path <$> (set_order ns first_dll second_dll).2
  = ModNative.path <$> ns.
Proof.
  apply list_eq. intros k. rewrite !list_lookup_fmap.
  destruct ((set_order ns first_dll second_dll).2 !! k) as [n'|] eqn:Hk.
  - destruct (set_order_frame _ _ _ _ _ _ Hk) as (n & -> & Hp & _).
    simpl. by rewrite Hp.
  - apply lookup_ge_None in Hk. rewrite set_order_length in Hk.
    apply lookup_ge_None in Hk. by rewrite Hk.
Qed.

Lemma break_cycle_path ns f s n :
  ModNative.path (break_cycle path_name ns f s n) = ModNative.path n.
Proof. by destruct (break_cycle_frame path_name ns f s n) as (? & _). Qed.

Lemma break_cycle_enabled ns f s n :
  ModNative.enabled (break_cycle path_name ns f s n) = ModNative.enabled n.
Proof. by destruct (break_cycle_frame path_name ns f s n) as (_ & ? & _). Qed.

Lemma break_cycle_name ns f s n :
  name_of (break_cycle path_name ns f s n) = name_of n.
Proof. unfold dll_name_of. by rewrite break_cycle_path. Qed.

(** After [break_cycle ns f s], an enabled native named [s] has no edge to
    [f] left. *)
Lemma break_cycle_clears ns f s n :
  n ∈ ns → ModNative.enabled n = true → name_of n = s →
  edges_to f (ModNative.load_before (break_cycle path_name ns f s n)) = [].
Proof.
  intros Hin Hen Hname. unfold break_cycle, _would_create_circular_dependency.
  destruct (depends_on ns s f) eqn:Hdep.
  - rewrite remove_from_edges, Hen, !bool_decide_eq_true_2; done.
  - simpl. destruct (edges_to f (ModNative.load_before n)) eqn:He; [done|].
    assert (depends_on ns s f = true); [|congruence].
    apply depends_on_spec. exists n. split_and!; try done. by rewrite He.
Qed.

(** [break_cycle] leaves the edges to another target, or removes them. *)
Lemma break_cycle_edges ns f s z n :
  edges_to z (ModNative.load_before (break_cycle path_name ns f s n)) = []
  ∨ edges_to z (ModNative.load_before (break_cycle path_name ns f s n))
    = edges_to z (ModNative.load_before n).
Proof.
  unfold break_cycle. destruct (_would_create_circular_dependency _ _ _ _);
    [|by right].
  rewrite remove_from_edges. destruct (_ && _); [by left|by right].
Qed.
End last_wins.

(** C3 (as amended).  Let A and B be enabled natives, and let the lookup
    loop of [set_specific_dll_order] resolve the two names to A and B, in
    that order for the first call and in the other order for the second.
    Then both calls succeed; afterwards B's [load_before] holds exactly one
    entry on A's file name, which is [{id: A, optional: false}], and A's
    [load_before] holds no entry on B's file name; the first call leaves
    A's entries on B as they were or makes them exactly one entry. *)
Theorem set_specific_dll_order_last_wins (path_name : string → string)
    (ns : list ModNative.t) (A B : string) (i j : nat) (a b : ModNative.t) :
  locate_pair path_name (strip_external A) (strip_external B) ns 0 (None, None)
  = (Some i, Some j) →
  locate_pair path_name (strip_external B) (strip_external A) ns 0 (None, None)
  = (Some j, Some i) →
  ns !! i = Some a → ns !! j = Some b →
  ModNative.enabled a = true → ModNative.enabled b = true →
  let na := dll_name_of path_name a in
  let nb := dll_name_of path_name b in
  ∃ ns1 ns2 a1 a2 b2,
    set_specific_dll_order path_name ns A B = (true, ns1)
    ∧ set_specific_dll_order path_name ns1 B A = (true, ns2)
    ∧ ns1 !! i = Some a1 ∧ ns2 !! i = Some a2 ∧ ns2 !! j = Some b2
    ∧ ModNative.path a2 = ModNative.path a
    ∧ ModNative.path b2 = ModNative.path b
    ∧ edges_to na (ModNative.load_before b2) = [new_dep false na]
    ∧ edges_to nb (ModNative.load_before a2) = []
    ∧ (edges_to nb (ModNative.load_before a1) = [new_dep false nb]
       ∨ edges_to nb (ModNative.load_before a1)
         = edges_to nb (ModNative.load_before a)).
Proof.
  intros Hloc1 Hloc2 Ha Hb Hena Henb na nb.
  destruct (locate_pair_Some _ _ _ _ _ _ Hloc1) as (? & ? & ? & ? & Hij & _).
  pose proof (set_order_success _ _ _ _ _ _ _ _ Hloc1 Ha Hb Hena Henb) as Hrun1.
  fold na nb in Hrun1.
  set (R1 := break_cycle path_name ns na nb) in *.
  set (ns1 := alter (add_edge nb) i (R1 <$> ns)) in *.
  set (a1 := add_edge nb (R1 a)). set (b1 := R1 b).
  assert (ns1 !! i = Some a1) as Ha1
    by (unfold ns1; by rewrite list_lookup_alter_eq, list_lookup_fmap, Ha).
  assert (ns1 !! j = Some b1) as Hb1
    by (unfold ns1; by rewrite list_lookup_alter_ne, list_lookup_fmap, Hb).
  assert (dll_name_of path_name a1 = na) as Hna1
    by (unfold a1, R1; by rewrite add_edge_name, break_cycle_name).
  assert (dll_name_of path_name b1 = nb) as Hnb1
    by (unfold b1, R1; by rewrite break_cycle_name).
  assert (ModNative.enabled a1 = true) as Hena1
    by (unfold a1, R1; by rewrite add_edge_enabled, break_cycle_enabled).
  assert (ModNative.enabled b1 = true) as Henb1
    by (unfold b1, R1; by rewrite break_cycle_enabled).
  (* the first call: A's edges to B *)
  assert (edges_to nb (ModNative.load_before a1) ≠ []
          ∧ (edges_to nb (ModNative.load_before a1) = [new_dep false nb]
             ∨ edges_to nb (ModNative.load_before a1)
               = edges_to nb (ModNative.load_before a))) as [Hne1 Hdup1].
  { unfold a1. rewrite add_edge_edges, bool_decide_eq_true_2 by done.
    destruct (break_cycle_edges path_name ns na nb nb a) as [He|He];
      fold R1 in He; rewrite He; [by split; [|left]|].
    destruct (edges_to nb (ModNative.load_before a)); [by split; [|left]|].
    by split; [|right]. }
  (* B has no edge to A after the first call *)
  assert (edges_to na (ModNative.load_before b1) = []) as Hb1_none.
  { unfold b1, R1. apply break_cycle_clears; [|done..].
    by eapply list_elem_of_lookup_2. }
  (* the second call *)
  assert (locate_pair path_name (strip_external B) (strip_external A) ns1 0
            (None, None) = (Some j, Some i)) as Hloc2'.
  { rewrite <-Hloc2. apply locate_pair_paths.
    rewrite <-(set_order_paths path_name ns A B). by rewrite Hrun1. }
  pose proof (set_order_success _ _ _ _ _ _ _ _ Hloc2' Hb1 Ha1 Henb1 Hena1)
    as Hrun2.
  rewrite Hna1, Hnb1 in Hrun2.
  assert (break_cycle path_name ns1 nb na = remove_dep_from path_name na nb)
    as HR2.
  { unfold break_cycle, _would_create_circular_dependency.
    replace (_dll_depends_on path_name ns1 na nb) with true; [done|].
    symmetry. apply depends_on_spec. exists a1. split_and!; try done.
    by eapply list_elem_of_lookup_2. }
  rewrite HR2 in Hrun2.
  set (R2 := remove_dep_from path_name na nb) in *.
  exists ns1, (alter (add_edge na) j (R2 <$> ns1)), a1, (R2 a1),
         (add_edge na (R2 b1)).
  split_and!; try done.
  - by rewrite list_lookup_alter_ne, list_lookup_fmap, Ha1.
  - by rewrite list_lookup_alter_eq, list_lookup_fmap, Hb1.
  - unfold R2, a1, R1.
    by rewrite remove_from_path, add_edge_path, break_cycle_path.
  - unfold R2, b1, R1.
    by rewrite add_edge_path, remove_from_path, break_cycle_path.
  - rewrite add_edge_edges, bool_decide_eq_true_2 by done.
    unfold R2. rewrite remove_from_edges, Hb1_none. by destruct (_ && _).
  - unfold R2. rewrite remove_from_edges, Hena1, Hna1.
    by rewrite !bool_decide_eq_true_2.
Qed.

Lemma set_specific_dll_order_last_wins_witness :
  ∃ ns1 ns2 a1 a2 b2,
    set_specific_dll_order basename
      [native_at "mods/a.dll" true None;
       native_at "b.dll" true (Some [new_dep true "a.dll"])] "a.dll" "b.dll"
    = (true, ns1)
    ∧ set_specific_dll_order basename ns1 "b.dll" "a.dll" = (true, ns2)
    ∧ ns1 !! 0 = Some a1 ∧ ns2 !! 0 = Some a2 ∧ ns2 !! 1 = Some b2
    ∧ edges_to "a.dll" (ModNative.load_before b2) = [new_dep false "a.dll"]
    ∧ edges_to "b.dll" (ModNative.load_before a2) = [].
Proof.
  destruct (set_specific_dll_order_last_wins basename
              [native_at "mods/a.dll" true None;
               native_at "b.dll" true (Some [new_dep true "a.dll"])]
              "a.dll" "b.dll" 0 1
              (native_at "mods/a.dll" true None)
              (native_at "b.dll" true (Some [new_dep true "a.dll"])))
    as (ns1 & ns2 & a1 & a2 & b2 & H1 & H2 & Ha1 & Ha2 & Hb2 & _ & _ & Hb & Ha & _);
    try reflexivity.
  exists ns1, ns2, a1, a2, b2. split_and!; assumption.
Defined.

(** C3 fails as stated: with the enabled natives [ax.dll] and [x.dll], the
    second call finds [ax.dll] under the name [x.dll] (its path ends with
    it) and no second native, so it returns false; the edge of the first
    call survives and the requested one is not set. *)
Lemma set_specific_dll_order_suffix_clash :
  let A := native_at "ax.dll" true None in
  let B := native_at "x.dll" true None in
  let r1 := set_specific_dll_order basename [B; A] "ax.dll" "x.dll" in
  let r2 := set_specific_dll_order basename r1.2 "x.dll" "ax.dll" in
  r1.1 = true ∧ r2.1 = false
  ∧ ∃ B2 A2,
      r2.2 = [B2; A2]
      ∧ ModNative.path B2 = "x.dll" ∧ ModNative.path A2 = "ax.dll"
      ∧ edges_to "ax.dll" (ModNative.load_before B2) = []
      ∧ edges_to "x.dll" (ModNative.load_before A2) = [new_dep false "x.dll"].
Proof. vm_compute. split_and!; try reflexivity. eexists _, _. done. Qed.

(** ** Force-first synthesis and its optimisation pass *)

Section force_first.
Variable path_name : string → string.
Implicit Types (ns : list ModNative.t) (n m : ModNative.t).

Local Abbreviation name_of := (dll_name_of path_name).
Local Abbreviation depends_on := (_dll_depends_on path_name).
Local Abbreviation find := (find_native path_name).
Local Abbreviation optimize := (_optimize_force_load_dependencies path_name).

Lemma paths_fmap (f : ModNative.t → ModNative.t) ns :
  (∀ n, ModNative.path (f n) = ModNative.path n) →
  ModNative.path <$> (f <$> ns) = ModNative.path <$> ns.
Proof.
  intros Hf. rewrite <-list_fmap_compose. apply list_fmap_ext.
  intros ? n _. apply Hf.
Qed.

Lemma paths_alter (g : ModNative.t → ModNative.t) ns i :
  (∀ n, ModNative.path (g n) = ModNative.path n) →
  ModNative.path <$> alter g i ns = ModNative.path <$> ns.
Proof.
  intros Hg. rewrite (list_fmap_alter _ g id).
  - by apply list_alter_id.
  - apply Forall_forall. intros n _. apply Hg.
Qed.

Lemma paths_lookup ns ns' k n :
  ModNative.path <$> ns = ModNative.path <$> ns' →
  ns !! k = Some n →
  ∃ n', ns' !! k = Some n' ∧ ModNative.path n' = ModNative.path n.
Proof.
  intros Hp Hk.
  assert ((ModNative.path <$> ns') !! k = Some (ModNative.path n)) as Hk'
    by (by rewrite <-Hp, list_lookup_fmap, Hk).
  apply list_lookup_fmap_Some in Hk' as (n' & Hpath & Hn'). by exists n'.
Qed.

(** A lookup by name sees the paths only. *)
Lemma find_paths ns ns' key i x :
  ModNative.path <$> ns = ModNative.path <$> ns' →
  find ns key = Some (i, x) →
  ∃ x', find ns' key = Some (i, x') ∧ ModNative.path x' = ModNative.path x.
Proof.
  intros Hp (Hi & Hm & Hlt)%list_find_Some.
  destruct (paths_lookup _ _ _ _ Hp Hi) as (x' & Hi' & Hpx).
  exists x'. split; [|done]. apply list_find_Some. split_and!; [done| |].
  - by rewrite (native_matches_path path_name key x' x).
  - intros k y Hk Hki.
    destruct (paths_lookup _ _ _ _ (eq_sym Hp) Hk) as (y0 & Hy0 & Hpy).
    rewrite (native_matches_path path_name key y y0) by done.
    by eapply Hlt.
Qed.

(** The optimisation pass, run on the native that the lookup finds: no
    kept entry is the target of an edge of another kept entry. *)
Lemma optimize_no_redundant ns key i t :
  find ns (strip_external key) = Some (i, t) →
  ∃ t',
    optimize ns key !! i = Some t'
    ∧ ModNative.path t' = ModNative.path t
    ∧ ∀ dy dz,
        dy ∈ items (ModNative.load_before t') →
        dz ∈ items (ModNative.load_before t') →
        dep_get_id dy ≠ dep_get_id dz →
        depends_on (optimize ns key) (dep_get_id dy) (dep_get_id dz) = false.
Proof.
  intros Hfind. pose proof Hfind as (Hi & _)%list_find_Some.
  unfold _optimize_force_load_dependencies. rewrite Hfind.
  destruct (truthy (ModNative.load_before t)) eqn:Ht; simpl.
  - set (keep := λ dep, existsb _ (items (ModNative.load_before t)) = false).
    set (F := filter keep (items (ModNative.load_before t))).
    exists (ModNative.set_load_before (or_None F) t).
    split; [by rewrite list_lookup_alter_eq, Hi|]. split; [done|].
    simpl. rewrite items_or_None.
    intros dy dz [Hky Hy]%list_elem_of_filter [Hkz Hz]%list_elem_of_filter Hne.
    apply not_true_is_false.
    intros (n' & [k Hk]%list_elem_of_lookup_1 & Hen & Hname & Hedge)%depends_on_spec.
    assert (depends_on ns (dep_get_id dy) (dep_get_id dz) = true) as Hdep.
    { apply depends_on_spec. destruct (decide (i = k)) as [->|Hik].
      - rewrite list_lookup_alter_eq, Hi in Hk. simplify_eq/=.
        exists t. split_and!; try done; [by eapply list_elem_of_lookup_2|].
        destruct (edges_to (dep_get_id dz) (or_None F)) as [|d ds] eqn:He;
          [done|].
        assert (d ∈ edges_to (dep_get_id dz) (or_None F)) as Hd
          by (rewrite He; constructor).
        apply edges_to_elem in Hd as [Hd Hid].
        rewrite items_or_None in Hd.
        apply list_elem_of_filter in Hd as [_ Hd].
        intros Hnil.
        assert (d ∈ edges_to (dep_get_id dz) (ModNative.load_before t)) as Hin
          by by apply edges_to_elem.
        rewrite Hnil in Hin. by apply not_elem_of_nil in Hin.
      - rewrite list_lookup_alter_ne in Hk by done.
        exists n'. split_and!; try done. by eapply list_elem_of_lookup_2. }
    unfold keep in Hkz.
    assert (existsb
              (λ other_dep,
                 bool_decide (dep_get_id other_dep ≠ dep_get_id dz)
                 && depends_on ns (dep_get_id other_dep) (dep_get_id dz))
              (items (ModNative.load_before t)) = true) as Hex; [|congruence].
    apply existsb_exists. exists dy. split; [by apply list_elem_of_In|].
    by rewrite bool_decide_eq_true_2, Hdep.
  - exists t. split; [done|]. split; [done|].
    rewrite (truthy_items _ Ht). by intros dy dz ?%not_elem_of_nil.
Qed.

Lemma clear_other_force_first_path t n :
  ModNative.path (clear_other_force_first path_name t n) = ModNative.path n.
Proof.
  unfold clear_other_force_first.
  case_bool_decide; [|done]. by destruct (_ && _).
Qed.

(** [set_force_load_first_native] succeeds whenever the lookup does, and its
    result is the optimisation pass run on a collection with the same
    paths. *)
Lemma set_force_load_first_native_run ns dll_name i X :
  find ns (strip_external dll_name) = Some (i, X) →
  ∃ ns3,
    set_force_load_first_native path_name ns dll_name
    = (true, optimize ns3 (name_of X))
    ∧ ModNative.path <$> ns3 = ModNative.path <$> ns.
Proof.
  intros Hfind. unfold set_force_load_first_native. rewrite Hfind.
  eexists. split; [reflexivity|].
  rewrite ensure_paths.
  destruct (other_enabled_dlls _ _ _);
    (rewrite paths_alter by done);
    apply paths_fmap, clear_other_force_first_path.
Qed.
End force_first.

(** C6 (as amended).  Let the lookup of [dll_name] find the native X, and
    let the lookup of X's own file name, which the optimisation pass runs,
    find X as well.  Then [set_force_load_first_native] succeeds, and among
    the entries it leaves in X's [load_before] none is the target of a
    [load_before] entry of an enabled native named by another of them.  In
    the scenario of the specification (x.dll, nighter.dll and nrsc.dll
    enabled, fixed rule nighter.dll before nrsc.dll) X keeps the entry on
    nighter.dll only. *)
Theorem set_force_load_first_native_optimized :
  (∀ (path_name : string → string) (ns : list ModNative.t)
     (dll_name : string) (i : nat) (X : ModNative.t),
     find_native path_name ns (strip_external dll_name) = Some (i, X) →
     find_native path_name ns (strip_external (dll_name_of path_name X))
     = Some (i, X) →
     ∃ ns' X',
       set_force_load_first_native path_name ns dll_name = (true, ns')
       ∧ ns' !! i = Some X'
       ∧ ModNative.path X' = ModNative.path X
       ∧ ∀ dy dz,
           dy ∈ items (ModNative.load_before X') →
           dz ∈ items (ModNative.load_before X') →
           dep_get_id dy ≠ dep_get_id dz →
           _dll_depends_on path_name ns' (dep_get_id dy) (dep_get_id dz) = false)
  ∧ ∃ ns' X',
      set_force_load_first_native basename
        [native_at "x.dll" true None; native_at "nighter.dll" true None;
         native_at "nrsc.dll" true None] "x.dll" = (true, ns')
      ∧ ns' !! 0 = Some X'
      ∧ ModNative.load_before X' = Some [new_dep false "nighter.dll"]
      ∧ _dll_depends_on basename ns' "nighter.dll" "nrsc.dll" = true.
Proof.
  split.
  - intros path_name ns dll_name i X Hfind Hself.
    destruct (set_force_load_first_native_run path_name ns dll_name i X Hfind)
      as (ns3 & -> & Hpaths).
    destruct (find_paths path_name ns ns3 _ i X (eq_sym Hpaths) Hself)
      as (X3 & Hfind3 & HpX3).
    destruct (optimize_no_redundant path_name ns3 _ i X3 Hfind3)
      as (X' & HX' & HpX' & Hopt).
    exists (_optimize_force_load_dependencies path_name ns3
              (dll_name_of path_name X)), X'.
    split_and!; try done. congruence.
  - eexists _, _. vm_compute. split_and!; reflexivity.
Qed.

Lemma set_force_load_first_native_optimized_witness :
  ∃ ns' X',
    set_force_load_first_native basename
      [native_at "mods/x.dll" true (Some [new_dep false "gone.dll"]);
       native_at "nighter.dll" true None; native_at "nrsc.dll" true None]
      "x.dll (外部)" = (true, ns')
    ∧ ns' !! 0 = Some X'
    ∧ _dll_depends_on basename ns' "nighter.dll" "nrsc.dll" = true
    ∧ new_dep false "nrsc.dll" ∉ items (ModNative.load_before X').
Proof.
  destruct (proj1 set_force_load_first_native_optimized basename
              [native_at "mods/x.dll" true (Some [new_dep false "gone.dll"]);
               native_at "nighter.dll" true None; native_at "nrsc.dll" true None]
              "x.dll (外部)" 0
              (native_at "mods/x.dll" true (Some [new_dep false "gone.dll"])))
    as (ns' & X' & Hrun & HX' & _ & Hopt); [reflexivity|reflexivity|].
  exists ns', X'. split; [exact Hrun|]. split; [exact HX'|].
  vm_compute in Hrun. injection Hrun as <-.
  vm_compute in HX'. injection HX' as <-.
  split; [reflexivity|].
  intros Hin.
  assert (_dll_depends_on basename
            [native_at "mods/x.dll" true (Some [new_dep false "nighter.dll"]);
             native_at "nighter.dll" true (Some [new_dep false "nrsc.dll"]);
             native_at "nrsc.dll" true None]
            (dep_get_id (new_dep false "nighter.dll"))
            (dep_get_id (new_dep false "nrsc.dll")) = false) as Hno.
  { apply Hopt; [apply list_elem_of_here|exact Hin|discriminate]. }
  vm_compute in Hno. discriminate Hno.
Defined.

(** C6 fails as stated: X is found by its path [b/x.dll], but the
    optimisation pass looks X's file name [x.dll] up and finds [a/x.dll];
    X keeps the entry on nrsc.dll next to the one on nighter.dll, which has
    an entry on nrsc.dll. *)
Lemma set_force_load_first_native_same_name :
  ∃ ns' X',
    set_force_load_first_native basename
      [native_at "a/x.dll" true None; native_at "b/x.dll" true None;
       native_at "nighter.dll" true None; native_at "nrsc.dll" true None]
      "b/x.dll" = (true, ns')
    ∧ ns' !! 1 = Some X'
    ∧ ModNative.path X' = "b/x.dll"
    ∧ new_dep false "nighter.dll" ∈ items (ModNative.load_before X')
    ∧ new_dep false "nrsc.dll" ∈ items (ModNative.load_before X')
    ∧ _dll_depends_on basename ns' "nighter.dll" "nrsc.dll" = true.
Proof.
  eexists _, _. vm_compute. split_and!; try reflexivity.
  - apply list_elem_of_further, list_elem_of_here.
  - apply list_elem_of_further, list_elem_of_further, list_elem_of_here.
Qed.

(** * Further properties of the manager *)

(** ** Force-last: set, detect, clear *)

Lemma omap_dep_id_new_dep (o : bool) (l : list string) :
  omap dep_id (new_dep o <$> l) = l.
Proof. induction l as [|s l IH]; [done|]. csimpl. by rewrite IH. Qed.

(** The collection [set_force_load_last] returns when its lookup succeeds. *)
Lemma set_force_load_last_run (ps : list ModPackage.t) (mod_id : string)
    (i : nat) (x : ModPackage.t) :
  find_package ps (strip_external mod_id) = Some (i, x) →
  ∃ f g,
    set_force_load_last ps mod_id = (true, alter g i (f <$> ps))
    ∧ (∀ p, f p = if bool_decide (p ≠ x)
                  then ModPackage.set_load_after None p else p)
    ∧ (∀ p, g p
            = ModPackage.set_load_after
                (or_None (new_dep true
                            <$> other_enabled_mods ps (strip_external mod_id))) p).
Proof.
  intros Hfind. unfold set_force_load_last. rewrite Hfind.
  set (f := λ other_pkg, if bool_decide (other_pkg ≠ x)
                         then ModPackage.set_load_after None other_pkg
                         else other_pkg).
  rewrite (other_enabled_mods_fmap f); [|intros p; unfold f; by case_bool_decide..].
  destruct (other_enabled_mods ps _) as [|o os]; eexists f, _; split_and!; done.
Qed.

(** A full marker is recognised by the overlap heuristic. *)
Lemma is_force_load_last_full_marker (ps : list ModPackage.t) (mod_id : string)
    (i : nat) (x : ModPackage.t) :
  find_package ps (strip_external mod_id) = Some (i, x) →
  ModPackage.load_after x
  = or_None (new_dep true <$> other_enabled_mods ps (strip_external mod_id)) →
  is_force_load_last ps mod_id
  = bool_decide (other_enabled_mods ps (strip_external mod_id) ≠ []).
Proof.
  intros Hfind Hla. unfold is_force_load_last. rewrite Hfind, Hla.
  destruct (other_enabled_mods ps _) as [|o os] eqn:Hothers; [done|].
  change (or_None (new_dep true <$> o :: os))
    with (Some (new_dep true <$> o :: os)).
  change (truthy (Some (new_dep true <$> o :: os))) with true.
  change (items (Some (new_dep true <$> o :: os)))
    with (new_dep true <$> o :: os).
  rewrite omap_dep_id_new_dep. cbn [negb].
  set (A := list_to_set (o :: os) : gset string).
  assert (size A ≠ 0%nat) as Hsize.
  { apply size_non_empty_iff. intros HA.
    assert (o ∈ A) as Ho by (apply elem_of_list_to_set; constructor).
    rewrite HA in Ho. by apply not_elem_of_empty in Ho. }
  replace (A ∩ A) with A by (symmetry; apply (idemp_L (∩))).
  rewrite (bool_decide_eq_false_2 _ Hsize).
  rewrite (bool_decide_eq_true_2 (o :: os ≠ [])) by done.
  case_bool_decide; apply bool_decide_eq_true_2; lia.
Qed.

(** Right after [set_force_load_last] succeeds, [is_force_load_last]
    recognises the marker exactly when some other package is enabled. *)
Theorem set_then_is_force_load_last (ps : list ModPackage.t) (mod_id : string) :
  let X := strip_external mod_id in
  (∃ pkg, pkg ∈ ps ∧ ModPackage.id pkg = X) →
  (set_force_load_last ps mod_id).1 = true
  ∧ (is_force_load_last (set_force_load_last ps mod_id).2 mod_id = true
     ↔ ∃ q, q ∈ ps ∧ ModPackage.enabled q = true ∧ ModPackage.id q ≠ X).
Proof.
  intros X Hex. destruct (find_package_is_Some ps X Hex) as (i & x & Hfind).
  destruct (set_force_load_last_run ps mod_id i x Hfind) as (f & g & -> & Hf & Hg).
  split; [done|]. simpl.
  assert (Hfid : ∀ p, ModPackage.id (f p) = ModPackage.id p)
    by (intros p; rewrite Hf; by case_bool_decide).
  assert (Hfen : ∀ p, ModPackage.enabled (f p) = ModPackage.enabled p)
    by (intros p; rewrite Hf; by case_bool_decide).
  assert (Hgid : ∀ p, ModPackage.id (g p) = ModPackage.id p)
    by (intros p; by rewrite Hg).
  assert (Hgen : ∀ p, ModPackage.enabled (g p) = ModPackage.enabled p)
    by (intros p; by rewrite Hg).
  rewrite (is_force_load_last_full_marker _ mod_id i (g (f x))).
  - rewrite other_enabled_mods_alter, other_enabled_mods_fmap by done.
    rewrite bool_decide_eq_true. fold X. split.
    + intros Hne. destruct (other_enabled_mods ps X) as [|o os] eqn:Ho; [done|].
      assert (o ∈ other_enabled_mods ps X) as Hin by (rewrite Ho; constructor).
      apply other_enabled_mods_elem in Hin as (q & ? & ? & ? & _). by exists q.
    + intros (q & Hq & Hen & Hne) Hnil.
      assert (ModPackage.id q ∈ other_enabled_mods ps X) as Hin
        by (apply other_enabled_mods_elem; by exists q).
      rewrite Hnil in Hin. by apply not_elem_of_nil in Hin.
  - by apply find_package_update.
  - rewrite other_enabled_mods_alter, other_enabled_mods_fmap by done.
    by rewrite Hg.
Qed.

Lemma set_then_is_force_load_last_witness :
  is_force_load_last
    (set_force_load_last
       [package_of "A" true None; package_of "B" true None] "B").2 "B" = true.
Proof.
  apply (set_then_is_force_load_last
           [package_of "A" true None; package_of "B" true None] "B").
  - exists (package_of "B" true None).
    split; [apply list_elem_of_further, list_elem_of_here|reflexivity].
  - exists (package_of "A" true None).
    split; [apply list_elem_of_here|]. split; [reflexivity|discriminate].
Defined.

(** After [set_force_load_last] succeeds for X, [is_force_load_last] is
    false for every name that cleans to an id other than X's: at most one
    package holds the marker. *)
Theorem set_force_load_last_unique (ps : list ModPackage.t) (mod_id other : string) :
  (∃ pkg, pkg ∈ ps ∧ ModPackage.id pkg = strip_external mod_id) →
  strip_external other ≠ strip_external mod_id →
  is_force_load_last (set_force_load_last ps mod_id).2 other = false.
Proof.
  intros Hex Hne.
  destruct (find_package_is_Some ps _ Hex) as (i & x & Hfind).
  destruct (set_force_load_last_run ps mod_id i x Hfind) as (f & g & -> & Hf & Hg).
  simpl. unfold is_force_load_last.
  destruct (find_package _ (strip_external other)) as [[j y']|] eqn:Hother;
    [|done].
  apply find_package_Some in Hother as [Hj Hid].
  apply find_package_Some in Hfind as [Hi Hidx].
  assert (∀ p, ModPackage.id (f p) = ModPackage.id p) as Hfid
    by (intros p; rewrite Hf; by case_bool_decide).
  assert (i ≠ j) as Hij.
  { intros ->. rewrite list_lookup_alter_eq, list_lookup_fmap, Hi in Hj.
    injection Hj as <-. apply Hne. rewrite <-Hid, <-Hidx, Hg. simpl.
    apply Hfid. }
  rewrite list_lookup_alter_ne, list_lookup_fmap in Hj by done.
  destruct (ps !! j) as [y|] eqn:Hy; [|done]. injection Hj as <-.
  rewrite Hf. rewrite bool_decide_eq_true_2; [done|].
  intros ->. apply Hne. by rewrite <-Hid, <-Hidx, Hfid.
Qed.

Lemma set_force_load_last_unique_witness :
  is_force_load_last
    (set_force_load_last
       [package_of "A" true (Some [new_dep true "B"]); package_of "B" true None]
       "B").2 "A" = false.
Proof.
  apply set_force_load_last_unique.
  - exists (package_of "B" true None).
    split; [apply list_elem_of_further, list_elem_of_here|reflexivity].
  - vm_compute. discriminate.
Defined.

(** After [clear_force_load_last], [is_force_load_last] is false for the
    same name; the call reports whether a package with the id exists; a
    failed call changes nothing; a successful one sets the [load_after] of
    the first package with the id to absent, keeps that package's other
    fields, and leaves every other slot of the collection as it was. *)
Theorem clear_force_load_last_clears (ps : list ModPackage.t) (mod_id : string) :
  let X := strip_external mod_id in
  let r := clear_force_load_last ps mod_id in
  is_force_load_last r.2 mod_id = false
  ∧ (r.1 = true ↔ ∃ pkg, pkg ∈ ps ∧ ModPackage.id pkg = X)
  ∧ (r.1 = false → r.2 = ps)
  ∧ List.length r.2 = List.length ps
  ∧ ∀ i x,
      ps !! i = Some x →
      ModPackage.id x = X →
      (∀ j y, ps !! j = Some y → (j < i)%nat → ModPackage.id y ≠ X) →
      r.2 !! i
      = Some (ModPackage.mk (ModPackage.id x) (ModPackage.source x) None
                (ModPackage.load_before x) (ModPackage.enabled x)
                (ModPackage.is_external x) (ModPackage.comment x))
      ∧ ∀ j, j ≠ i → r.2 !! j = ps !! j.
Proof.
  intros X r. unfold r, clear_force_load_last. fold X.
  destruct (find_package ps X) as [[i x]|] eqn:Hfind; simpl.
  - split_and!.
    + unfold is_force_load_last. fold X.
      rewrite <-(list_fmap_id ps) at 1.
      by rewrite (find_package_update id _ ps _ i x).
    + split; [|done]. intros _. apply find_package_Some in Hfind as [Hi Hid].
      exists x. split; [by eapply list_elem_of_lookup_2|done].
    + done.
    + by rewrite length_alter.
    + intros i' x' Hi' Hid' Hfirst'.
      assert (find_package ps X = Some (i', x')) as Hfind'
        by (apply list_find_Some; eauto).
      rewrite Hfind in Hfind'. injection Hfind' as <- <-. split.
      * by rewrite list_lookup_alter_eq, Hi'.
      * intros j Hj. by rewrite list_lookup_alter_ne.
  - split_and!.
    + unfold is_force_load_last. fold X. by rewrite Hfind.
    + split; [done|]. intros Hex.
      destruct (find_package_is_Some ps _ Hex) as (i & x & Hsome). congruence.
    + done.
    + done.
    + intros i x Hi Hid Hfirst.
      assert (find_package ps X = Some (i, x)) as Hfind'
        by (apply list_find_Some; eauto).
      congruence.
Qed.

(** ** Enabling and disabling packages *)

(** Toggling a package twice restores the collection; the result flag
    stays the same. *)
Theorem toggle_package_twice (ps : list ModPackage.t) (package_id : string) :
  toggle_package (toggle_package ps package_id).2 package_id
  = ((toggle_package ps package_id).1, ps).
Proof.
  unfold toggle_package.
  destruct (find_package ps (strip_external package_id)) as [[i x]|] eqn:Hfind;
    simpl; [|by rewrite Hfind].
  set (g := package_set_enabled (negb (ModPackage.enabled x))).
  assert (find_package (alter g i ps) (strip_external package_id)
          = Some (i, g x)) as ->.
  { rewrite <-(list_fmap_id ps) at 1. by apply (find_package_update id). }
  f_equal. apply find_package_Some in Hfind as [Hi _].
  apply list_eq. intros j. destruct (decide (i = j)) as [->|Hne].
  - rewrite !list_lookup_alter_eq, Hi. simpl. rewrite negb_involutive.
    by destruct x.
  - by rewrite !list_lookup_alter_ne.
Qed.

(** A package that [add_package] has just appended is removed again by
    [remove_package] with the same identifier, provided both methods clean
    the identifier to the same id (it ends with the decoration, or holds
    none). *)
Theorem add_then_remove_package (self self' : ModConfigManager)
    (package_id source_path : string) (enabled : bool) :
  add_package self package_id source_path enabled = (true, self') →
  strip_external package_id = strip_external_suffix package_id →
  remove_package (packages self') package_id = (true, packages self).
Proof.
  unfold add_package.
  change (if str_endswith package_id EXTERNAL_MARK
          then strip_external package_id else package_id)
    with (strip_external_suffix package_id).
  destruct (existsb _ (packages self)) eqn:Hex; [discriminate|].
  intros [= <-] Hclean. simpl. unfold remove_package, find_package.
  rewrite Hclean.
  assert (list_find (λ p, ModPackage.id p = strip_external_suffix package_id)
            (packages self) = None) as Hnone.
  { apply list_find_None, Forall_forall. intros p Hp Hid.
    assert (existsb (λ pkg, bool_decide
              (ModPackage.id pkg = strip_external_suffix package_id))
              (packages self) = true); [|congruence].
    apply existsb_bool_decide. by exists p. }
  rewrite (list_find_app_r _ _ _ Hnone). simpl.
  rewrite decide_True by done. simpl.
  change (0 + List.length (packages self)) with (List.length (packages self)).
  f_equal. rewrite delete_middle. apply app_nil_r.
Qed.

Lemma add_then_remove_package_witness :
  remove_package
    (packages
       (add_package (mkManager [package_of "A" true None] [] ∅ ∅)
          "B (外部)" "B/" true).2) "B (外部)"
  = (true, [package_of "A" true None]).
Proof.
  apply (add_then_remove_package
           (mkManager [package_of "A" true None] [] ∅ ∅) _
           "B (外部)" "B/" true); reflexivity.
Defined.

Lemma delete_elem_lookup {A} (l : list A) (i : nat) (y : A) :
  y ∈ delete i l → ∃ j, j ≠ i ∧ l !! j = Some y.
Proof.
  intros [j Hj]%list_elem_of_lookup_1.
  destruct (decide (j < i)) as [Hlt|Hge].
  - rewrite list_lookup_delete_lt in Hj by done. exists j. split; [lia|done].
  - rewrite list_lookup_delete_ge in Hj by lia. exists (S j). split; [lia|done].
Qed.

(** Disabling through the user interface is [remove_package] followed by
    [update_load_dependencies].  When the ids of the packages are pairwise
    distinct, no [load_after] refers to the removed id afterwards. *)
Theorem remove_package_then_update (path_name : string → string)
    (self : ModConfigManager) (package_id : string) (ps1 : list ModPackage.t) :
  NoDup (ModPackage.id <$> packages self) →
  remove_package (packages self) package_id = (true, ps1) →
  ∀ q l d,
    q ∈ packages (update_load_dependencies path_name (set_packages ps1 self)) →
    ModPackage.load_after q = Some l → d ∈ l →
    dep_id d ≠ Some (strip_external package_id).
Proof.
  intros Hnodup Hrem q l d Hq Hl Hd Hid.
  unfold remove_package in Hrem.
  destruct (find_package (packages self) (strip_external package_id))
    as [[i x]|] eqn:Hfind; [|discriminate].
  injection Hrem as <-. apply find_package_Some in Hfind as [Hi Hidx].
  unfold update_load_dependencies in Hq. simpl in Hq.
  apply list_elem_of_fmap in Hq as (q0 & -> & Hq0). simpl in Hl.
  assert (dep_get_id d
          ∈@{gset string}
            list_to_set (ModPackage.id <$>
              filter (λ pkg, ModPackage.enabled pkg = true)
                     (delete i (packages self)))) as Hin.
  { apply (filter_enabled_deps_items _ (ModPackage.load_after q0)).
    by rewrite Hl. }
  apply enabled_package_ids_elem in Hin as (p & Hp & _ & Hpid).
  apply delete_elem_lookup in Hp as (j & Hne & Hj).
  apply Hne. apply (NoDup_lookup _ _ _ (strip_external package_id) Hnodup).
  - rewrite list_lookup_fmap, Hj. simpl. rewrite Hpid.
    unfold dep_get_id. by rewrite Hid.
  - by rewrite list_lookup_fmap, Hi, <-Hidx.
Qed.

Lemma remove_package_then_update_witness :
  dep_id (new_dep true "A") ≠ Some "C".
Proof.
  apply (remove_package_then_update basename
           (mkManager
              [package_of "A" true None;
               package_of "B" true (Some [new_dep true "A"; new_dep true "C"]);
               package_of "C" true None] [] ∅ ∅) "C"
           [package_of "A" true None;
            package_of "B" true (Some [new_dep true "A"; new_dep true "C"])])
    with (q := package_of "B" true (Some [new_dep true "A"]))
         (l := [new_dep true "A"]).
  - vm_compute. repeat constructor; intros Hin; inversion Hin as [|? ? ? Hin'];
      subst; try inversion Hin' as [|? ? ? Hin'']; subst; try inversion Hin''.
  - reflexivity.
  - vm_compute. apply list_elem_of_further, list_elem_of_here.
  - reflexivity.
  - apply list_elem_of_here.
Defined.

(** When a package is enabled and [add_to_load_dependencies] finds a
    force-last holder, the package that the holder's id resolves to gets a
    [load_after] naming every enabled package with another id, each once per
    package and optional; no other package changes.  Without a holder
    nothing changes. *)
Theorem add_to_load_dependencies_package_rebuilds (ps : list ModPackage.t) :
  (force_last_holder ps = None → add_to_load_dependencies_package ps = ps)
  ∧ ∀ k h i x,
      force_last_holder ps = Some (k, h) →
      find_package ps (strip_external (ModPackage.id h)) = Some (i, x) →
      let X := strip_external (ModPackage.id h) in
      let ps' := add_to_load_dependencies_package ps in
      (∀ j, j ≠ i → ps' !! j = ps !! j)
      ∧ ∃ x',
          ps' !! i = Some x'
          ∧ ModPackage.set_load_after None x' = ModPackage.set_load_after None x
          ∧ ModPackage.load_after x'
            = or_None (new_dep true <$> other_enabled_mods ps X)
          ∧ ∀ q, q ∈ ps → ModPackage.enabled q = true → ModPackage.id q ≠ X →
                 new_dep true (ModPackage.id q)
                 ∈ items (ModPackage.load_after x').
Proof.
  unfold add_to_load_dependencies_package. fold (force_last_holder ps). split.
  - by intros ->.
  - intros k h i x -> Hfind. unfold _rebuild_force_load_last_dependencies.
    set (X := strip_external (ModPackage.id h)) in *. rewrite Hfind. apply find_package_Some in Hfind as [Hi _].
    assert (∀ v,
      (∀ j, j ≠ i → alter (ModPackage.set_load_after v) i ps !! j = ps !! j)
      ∧ alter (ModPackage.set_load_after v) i ps !! i
        = Some (ModPackage.set_load_after v x)) as Halter.
    { intros v. split; [intros j Hj; by rewrite list_lookup_alter_ne|].
      by rewrite list_lookup_alter_eq, Hi. }
    destruct (other_enabled_mods ps X) as [|o os] eqn:Hothers.
    + destruct (Halter None) as [Hrest Hat]. split; [done|].
      eexists. split; [done|]. split_and!; try done.
      intros q Hq Hen Hne.
      assert (ModPackage.id q ∈ other_enabled_mods ps X) as Hin
        by (apply other_enabled_mods_elem; by exists q).
      rewrite Hothers in Hin. by apply not_elem_of_nil in Hin.
    + destruct (Halter (Some (new_dep true <$> o :: os))) as [Hrest Hat].
      split; [done|]. eexists. split; [done|]. split_and!; try done.
      intros q Hq Hen Hne.
      assert (ModPackage.id q ∈ o :: os) as Hin
        by (rewrite <-Hothers; apply other_enabled_mods_elem; by exists q).
      exact (list_elem_of_fmap_2 (new_dep true) _ _ Hin).
Qed.

(** The scenario of the specification: B holds the marker over A, then D
    is enabled. *)
Lemma add_to_load_dependencies_package_rebuilds_witness :
  new_dep true "D"
  ∈ items
      (ModPackage.load_after
         (package_of "B" true (Some [new_dep true "A"; new_dep true "D"]))).
Proof.
  destruct (proj2 (add_to_load_dependencies_package_rebuilds
                     [package_of "A" true None;
                      package_of "B" true (Some [new_dep true "A"]);
                      package_of "D" true None])
              1 (package_of "B" true (Some [new_dep true "A"]))
              1 (package_of "B" true (Some [new_dep true "A"])))
    as [_ (x' & Hx' & _ & _ & Hcover)]; [reflexivity|reflexivity|].
  vm_compute in Hx'. injection Hx' as <-.
  apply (Hcover (package_of "D" true None)).
  - apply list_elem_of_further, list_elem_of_further, list_elem_of_here.
  - reflexivity.
  - vm_compute. discriminate.
Defined.

(** ** Reconciliation: what it keeps *)

Lemma filter_enabled_deps_idemp (S : gset string) (l : option (list Dep)) :
  filter_enabled_deps S (filter_enabled_deps S l) = filter_enabled_deps S l.
Proof.
  unfold filter_enabled_deps. destruct (truthy l) eqn:Ht; [|by rewrite Ht].
  destruct (filter _ (items l)) as [|d ds] eqn:Hf; [done|].
  simpl. rewrite <-Hf, list_filter_filter.
  rewrite (list_filter_iff _ (λ dep, dep_get_id dep ∈ S)) by tauto.
  by rewrite Hf.
Qed.

Lemma enabled_ids_fmap (f : ModPackage.t → ModPackage.t) (ps : list ModPackage.t) :
  (∀ p, ModPackage.id (f p) = ModPackage.id p) →
  (∀ p, ModPackage.enabled (f p) = ModPackage.enabled p) →
  ModPackage.id <$> filter (λ pkg, ModPackage.enabled pkg = true) (f <$> ps)
  = ModPackage.id <$> filter (λ pkg, ModPackage.enabled pkg = true) ps.
Proof.
  intros Hid Hen. induction ps as [|p ps IH]; [done|]. csimpl.
  rewrite !filter_cons, Hen. case_decide; csimpl; rewrite ?Hid; by rewrite IH.
Qed.

Lemma update_packages_idemp
    (path_name : string → string) (self : ModConfigManager) :
  packages (update_load_dependencies path_name
              (update_load_dependencies path_name self))
  = packages (update_load_dependencies path_name self).
Proof.
  unfold update_load_dependencies. simpl.
  set (S := list_to_set (ModPackage.id <$> filter _ (packages self)) : gset string).
  rewrite (enabled_ids_fmap (update_package_deps S)) by done. fold S.
  rewrite <-list_fmap_compose. apply list_fmap_ext. intros j p _. simpl.
  unfold update_package_deps. simpl. by rewrite filter_enabled_deps_idemp.
Qed.

(** ** Single natives: flags and constraint lists *)

Lemma list_find_alter_preserved {A} (P : A → Prop) `{!∀ x, Decision (P x)}
    (g : A → A) (l : list A) (i : nat) (x : A) :
  (∀ y, P (g y) ↔ P y) →
  list_find P l = Some (i, x) →
  list_find P (alter g i l) = Some (i, g x).
Proof.
  intros Hg (Hi & HP & Hlt)%list_find_Some. apply list_find_Some. split_and!.
  - by rewrite list_lookup_alter_eq, Hi.
  - by apply Hg.
  - intros j y Hj Hji. rewrite list_lookup_alter_ne in Hj by lia.
    by eapply Hlt.
Qed.

Lemma find_native_alter (path_name : string → string) (g : ModNative.t → ModNative.t)
    (ns : list ModNative.t) (key : string) (i : nat) (x : ModNative.t) :
  (∀ n, ModNative.path (g n) = ModNative.path n) →
  find_native path_name ns key = Some (i, x) →
  find_native path_name (alter g i ns) key = Some (i, g x).
Proof.
  intros Hg. apply list_find_alter_preserved. intros y.
  by rewrite (native_matches_path path_name key (g y) y).
Qed.

(** [is_native_load_early] reads back what [set_native_load_early] wrote;
    when no native matches, the set fails and the read gives false. *)
Theorem set_then_is_native_load_early (path_name : string → string)
    (ns : list ModNative.t) (dll_name : string) (enabled : bool) :
  is_native_load_early path_name
    (set_native_load_early path_name ns dll_name enabled).2 dll_name
  = (set_native_load_early path_name ns dll_name enabled).1 && enabled.
Proof.
  unfold set_native_load_early, is_native_load_early.
  destruct (find_native path_name ns (strip_external dll_name))
    as [[i x]|] eqn:Hfind; simpl; [|by rewrite Hfind].
  by rewrite (find_native_alter _ _ _ _ i x).
Qed.

(** [get_native_load_before] reads back what [set_native_load_before]
    wrote: the targets in order, each with the given optional flag, or
    absent for no targets; after [clear_native_load_before] and after
    [clear_force_load_first_native] it reads absent. *)
Theorem set_then_get_native_load_before (path_name : string → string)
    (ns : list ModNative.t) (dll_name : string) (target_dlls : list string)
    (optional : bool) :
  get_native_load_before path_name
    (set_native_load_before path_name ns dll_name target_dlls optional).2 dll_name
  = (if (set_native_load_before path_name ns dll_name target_dlls optional).1
     then or_None (new_dep optional <$> target_dlls) else None)
  ∧ get_native_load_before path_name
      (clear_native_load_before path_name ns dll_name).2 dll_name = None
  ∧ get_native_load_before path_name
      (clear_force_load_first_native path_name ns dll_name).2 dll_name = None.
Proof.
  unfold set_native_load_before, clear_native_load_before,
    clear_force_load_first_native, get_native_load_before.
  destruct (find_native path_name ns (strip_external dll_name))
    as [[i x]|] eqn:Hfind; simpl; [|by rewrite Hfind].
  split_and!.
  - destruct target_dlls as [|t ts]; simpl;
      by rewrite (find_native_alter _ _ _ _ i x).
  - by rewrite (find_native_alter _ _ _ _ i x).
  - by rewrite (find_native_alter _ _ _ _ i x).
Qed.

(** Toggling a native twice restores the collection; the result flag stays
    the same. *)
Theorem toggle_native_twice (path_name : string → string)
    (ns : list ModNative.t) (dll_path : string) :
  toggle_native path_name (toggle_native path_name ns dll_path).2 dll_path
  = ((toggle_native path_name ns dll_path).1, ns).
Proof.
  unfold toggle_native.
  destruct (list_find _ ns) as [[i x]|] eqn:Hfind; simpl; [|by rewrite Hfind].
  set (g := native_set_enabled (negb (ModNative.enabled x))).
  rewrite (list_find_alter_preserved _ g ns i x); [|done|done].
  f_equal. apply list_find_Some in Hfind as (Hi & _).
  apply list_eq. intros j. destruct (decide (i = j)) as [->|Hne].
  - rewrite !list_lookup_alter_eq, Hi. simpl. rewrite negb_involutive.
    by destruct x.
  - by rewrite !list_lookup_alter_ne.
Qed.

(** ** Pairwise order: one call, and the same call again *)

Lemma add_edge_idemp (s : string) (n : ModNative.t) :
  add_edge s (add_edge s n) = add_edge s n.
Proof.
  set (m := add_edge s n).
  assert (edges_to s (ModNative.load_before m) ≠ []) as Hedge.
  { unfold m. rewrite add_edge_edges, bool_decide_eq_true_2 by done.
    by destruct (edges_to s (ModNative.load_before n)). }
  pose proof (edges_to_truthy _ _ Hedge) as Ht.
  apply has_dep_on_edges in Hedge.
  unfold add_edge at 1. rewrite Ht.
  replace (has_dep_on s (Some (items (ModNative.load_before m)))) with true
    by (symmetry; exact Hedge).
  destruct m as [? ? ? ? ? ? lb ? ? ?]. simpl in *.
  by destruct lb as [[|]|].
Qed.

Lemma set_order_no_cycle (path_name : string → string)
    (ns : list ModNative.t) (A B : string) (i j : nat) (a b : ModNative.t) :
  locate_pair path_name (strip_external A) (strip_external B) ns 0 (None, None)
  = (Some i, Some j) →
  ns !! i = Some a → ns !! j = Some b →
  ModNative.enabled a = true → ModNative.enabled b = true →
  dll_name_of path_name a ≠ dll_name_of path_name b →
  ∃ ns' a',
    set_specific_dll_order path_name ns A B = (true, ns')
    ∧ ns' !! i = Some a'
    ∧ edges_to (dll_name_of path_name b) (ModNative.load_before a') ≠ []
    ∧ _dll_depends_on path_name ns'
        (dll_name_of path_name b) (dll_name_of path_name a) = false
    ∧ ModNative.path <$> ns' = ModNative.path <$> ns
    ∧ ModNative.enabled <$> ns' = ModNative.enabled <$> ns.
Proof.
  intros Hloc Ha Hb Hena Henb Hnames.
  set (na := dll_name_of path_name a) in *.
  set (nb := dll_name_of path_name b) in *.
  rewrite (set_order_success _ _ _ _ _ _ _ _ Hloc Ha Hb Hena Henb).
  fold na nb. set (R := break_cycle path_name ns na nb).
  exists (alter (add_edge nb) i (R <$> ns)), (add_edge nb (R a)).
  split_and!; try done.
  - by rewrite list_lookup_alter_eq, list_lookup_fmap, Ha.
  - rewrite add_edge_edges, bool_decide_eq_true_2 by done.
    by destruct (edges_to nb _).
  - apply not_true_is_false.
    intros (n' & [k Hk]%list_elem_of_lookup_1 & Hen & Hname & Hedge)%depends_on_spec.
    destruct (decide (i = k)) as [->|Hik].
    + rewrite list_lookup_alter_eq, list_lookup_fmap, Ha in Hk.
      injection Hk as <-. unfold R in Hname.
      rewrite add_edge_name, break_cycle_name in Hname. by apply Hnames.
    + rewrite list_lookup_alter_ne, list_lookup_fmap in Hk by done.
      destruct (ns !! k) as [n|] eqn:Hn; [|done]. injection Hk as <-.
      unfold R in *. rewrite break_cycle_name in Hname.
      rewrite break_cycle_enabled in Hen.
      apply Hedge, break_cycle_clears; [|done..].
      by eapply list_elem_of_lookup_2.
  - rewrite paths_alter by apply add_edge_path.
    apply paths_fmap. intros n. apply break_cycle_path.
  - rewrite (list_fmap_alter _ (add_edge nb) id).
    + rewrite list_alter_id by done. rewrite <-list_fmap_compose.
      apply list_fmap_ext. intros ? n _. apply break_cycle_enabled.
    + apply Forall_forall. intros n _. apply add_edge_enabled.
Qed.

(** A successful [set_specific_dll_order] between natives with different
    file names leaves the requested edge on the first native and no enabled
    native named like the second one with an edge back to the first name;
    paths and enabled flags are kept. *)
Theorem set_specific_dll_order_no_cycle (path_name : string → string)
    (ns : list ModNative.t) (A B : string) (i j : nat) (a b : ModNative.t) :
  locate_pair path_name (strip_external A) (strip_external B) ns 0 (None, None)
  = (Some i, Some j) →
  ns !! i = Some a → ns !! j = Some b →
  ModNative.enabled a = true → ModNative.enabled b = true →
  dll_name_of path_name a ≠ dll_name_of path_name b →
  ∃ ns' a',
    set_specific_dll_order path_name ns A B = (true, ns')
    ∧ ns' !! i = Some a'
    ∧ edges_to (dll_name_of path_name b) (ModNative.load_before a') ≠ []
    ∧ _dll_depends_on path_name ns'
        (dll_name_of path_name b) (dll_name_of path_name a) = false
    ∧ ModNative.path <$> ns' = ModNative.path <$> ns
    ∧ ModNative.enabled <$> ns' = ModNative.enabled <$> ns.
Proof. exact (set_order_no_cycle path_name ns A B i j a b). Qed.

Lemma set_specific_dll_order_no_cycle_witness :
  ∃ ns' a',
    set_specific_dll_order basename
      [native_at "nighter.dll" true None;
       native_at "nrsc.dll" true (Some [new_dep false "nighter.dll"])]
      "nighter.dll" "nrsc.dll" = (true, ns')
    ∧ ns' !! 0 = Some a'
    ∧ edges_to "nrsc.dll" (ModNative.load_before a') ≠ []
    ∧ _dll_depends_on basename ns' "nrsc.dll" "nighter.dll" = false.
Proof.
  destruct (set_specific_dll_order_no_cycle basename
              [native_at "nighter.dll" true None;
               native_at "nrsc.dll" true (Some [new_dep false "nighter.dll"])]
              "nighter.dll" "nrsc.dll" 0 1
              (native_at "nighter.dll" true None)
              (native_at "nrsc.dll" true (Some [new_dep false "nighter.dll"])))
    as (ns' & a' & Hrun & Ha' & Hedge & Hno & _);
    [reflexivity..|vm_compute; discriminate|].
  exists ns', a'. split_and!; assumption.
Defined.

Lemma set_order_idemp (path_name : string → string)
    (ns : list ModNative.t) (A B : string) :
  (∀ i j a b,
     locate_pair path_name (strip_external A) (strip_external B) ns 0 (None, None)
     = (Some i, Some j) →
     ns !! i = Some a → ns !! j = Some b →
     dll_name_of path_name a ≠ dll_name_of path_name b) →
  set_specific_dll_order path_name
    (set_specific_dll_order path_name ns A B).2 A B
  = set_specific_dll_order path_name ns A B.
Proof.
  intros Hnames.
  destruct (locate_pair path_name (strip_external A) (strip_external B) ns 0
              (None, None)) as [[i|] [j|]] eqn:Hloc;
    try (unfold set_specific_dll_order; rewrite Hloc; simpl; by rewrite Hloc).
  destruct (locate_pair_Some _ _ _ _ _ _ Hloc) as (a & b & Ha & Hb & Hij & _).
  destruct (ModNative.enabled a) eqn:Hena, (ModNative.enabled b) eqn:Henb;
    try (unfold set_specific_dll_order; rewrite Hloc, Ha, Hb, Hena, Henb; simpl;
         by rewrite Hloc, Ha, Hb, Hena, Henb).
  destruct (set_order_no_cycle path_name ns A B i j a b)
    as (ns' & a' & Hrun & Ha' & Hedge & Hno & Hpaths & Hens);
    [done..|by eapply Hnames|].
  rewrite Hrun. simpl.
  pose proof Hrun as Hrun'.
  rewrite (set_order_success _ _ _ _ _ _ _ _ Hloc Ha Hb Hena Henb) in Hrun'.
  injection Hrun' as Hns'.
  assert (ns' !! j = Some (break_cycle path_name ns (dll_name_of path_name a)
                             (dll_name_of path_name b) b)) as Hb'
    by (by rewrite <-Hns', list_lookup_alter_ne, list_lookup_fmap, Hb).
  assert (a' = add_edge (dll_name_of path_name b)
                 (break_cycle path_name ns (dll_name_of path_name a)
                    (dll_name_of path_name b) a)) as Ha'eq.
  { rewrite <-Hns', list_lookup_alter_eq, list_lookup_fmap, Ha in Ha'.
    by injection Ha' as <-. }
  assert (locate_pair path_name (strip_external A) (strip_external B) ns' 0
            (None, None) = (Some i, Some j)) as Hloc'
    by (rewrite <-Hloc; by apply locate_pair_paths).
  rewrite (set_order_success _ _ _ _ _ _ _ _ Hloc' Ha' Hb').
  - rewrite break_cycle_name.
    assert (dll_name_of path_name a' = dll_name_of path_name a) as ->
      by (rewrite Ha'eq; by rewrite add_edge_name, break_cycle_name).
    unfold break_cycle at 1, _would_create_circular_dependency.
    rewrite Hno, list_fmap_id. f_equal.
    apply list_eq. intros k. destruct (decide (i = k)) as [->|Hik].
    + rewrite list_lookup_alter_eq, Ha'. simpl. rewrite Ha'eq.
      by rewrite add_edge_idemp.
    + by rewrite list_lookup_alter_ne.
  - rewrite Ha'eq. by rewrite add_edge_enabled, break_cycle_enabled.
  - by rewrite break_cycle_enabled.
Qed.

(** Repeating a call of [set_specific_dll_order] changes nothing further
    and returns the same flag, when the two natives the lookup finds have
    different file names. *)
Theorem set_specific_dll_order_idempotent (path_name : string → string)
    (ns : list ModNative.t) (A B : string) :
  (∀ i j a b,
     locate_pair path_name (strip_external A) (strip_external B) ns 0 (None, None)
     = (Some i, Some j) →
     ns !! i = Some a → ns !! j = Some b →
     dll_name_of path_name a ≠ dll_name_of path_name b) →
  set_specific_dll_order path_name
    (set_specific_dll_order path_name ns A B).2 A B
  = set_specific_dll_order path_name ns A B.
Proof. exact (set_order_idemp path_name ns A B). Qed.

Lemma set_specific_dll_order_idempotent_witness :
  set_specific_dll_order basename
    (set_specific_dll_order basename
       [native_at "nighter.dll" true None; native_at "nrsc.dll" true None]
       "nighter.dll" "nrsc.dll").2 "nighter.dll" "nrsc.dll"
  = (true,
     [native_at "nighter.dll" true (Some [new_dep false "nrsc.dll"]);
      native_at "nrsc.dll" true None]).
Proof.
  rewrite (set_specific_dll_order_idempotent basename
             [native_at "nighter.dll" true None; native_at "nrsc.dll" true None]
             "nighter.dll" "nrsc.dll"); [reflexivity|].
  intros i j a b Hloc Ha Hb. vm_compute in Hloc. injection Hloc as <- <-.
  vm_compute in Ha, Hb. injection Ha as <-. injection Hb as <-.
  vm_compute. discriminate.
Defined.

(** ** Reconciliation: the frame *)

Lemma native_core_set_load_before (v : option (list Dep)) (n : ModNative.t) :
  native_core (ModNative.set_load_before v n) = native_core n.
Proof. done. Qed.

Lemma native_core_set_load_after (v : option (list Dep)) (n : ModNative.t) :
  native_core (ModNative.set_load_after v n) = native_core n.
Proof. done. Qed.

Lemma native_core_remove_dep_from (path_name : string → string)
    (fr to : string) (n : ModNative.t) :
  native_core (remove_dep_from path_name fr to n) = native_core n.
Proof. unfold remove_dep_from. by destruct (_ && _). Qed.

Lemma native_core_add_edge (s : string) (n : ModNative.t) :
  native_core (add_edge s n) = native_core n.
Proof. unfold add_edge. by destruct (has_dep_on _ _). Qed.

Lemma native_core_break_cycle (path_name : string → string)
    (ns : list ModNative.t) (f s : string) (n : ModNative.t) :
  native_core (break_cycle path_name ns f s n) = native_core n.
Proof.
  unfold break_cycle. destruct (_would_create_circular_dependency _ _ _ _);
    [apply native_core_remove_dep_from|done].
Qed.

Lemma fmap_fmap_preserved {A B} (h : A → B) (f : A → A) (l : list A) :
  (∀ a, h (f a) = h a) → h <$> (f <$> l) = h <$> l.
Proof.
  intros Hf. rewrite <-list_fmap_compose. apply list_fmap_ext.
  intros ? a _. apply Hf.
Qed.

Lemma fmap_alter_preserved {A B} (h : A → B) (g : A → A) (l : list A) (i : nat) :
  (∀ a, h (g a) = h a) → h <$> alter g i l = h <$> l.
Proof.
  intros Hg. apply list_eq. intros k. rewrite !list_lookup_fmap.
  destruct (decide (i = k)) as [->|Hne].
  - rewrite list_lookup_alter_eq. destruct (l !! k); simpl; by rewrite ?Hg.
  - by rewrite list_lookup_alter_ne.
Qed.

Lemma native_core_set_order (path_name : string → string)
    (ns : list ModNative.t) (first_dll second_dll : string) :
  native_core <$> (set_specific_dll_order path_name ns first_dll second_dll).2
  = native_core <$> ns.
Proof.
  destruct (set_order_cases path_name ns first_dll second_dll)
    as [->|(i & j & a & b & _ & _ & _ & ->)]; [done|].
  rewrite fmap_alter_preserved by apply native_core_add_edge.
  apply fmap_fmap_preserved. intros n. apply native_core_break_cycle.
Qed.

Lemma native_core_ensure (path_name : string → string) (ns : list ModNative.t) :
  native_core <$> ensure_specific_dll_orders path_name ns = native_core <$> ns.
Proof.
  unfold ensure_specific_dll_orders, specific_orders. simpl.
  destruct (both_enabled path_name ns _ _) as [[|] [|]]; try done.
  apply native_core_set_order.
Qed.

(** [update_load_dependencies] changes nothing but the [load_after] lists
    of packages and the [load_before] and [load_after] lists of natives: it
    adds, removes, reorders, enables and disables no entity and leaves the
    registry of external entries alone. *)
Theorem update_load_dependencies_frame (path_name : string → string)
    (self : ModConfigManager) :
  let self' := update_load_dependencies path_name self in
  ModPackage.set_load_after None <$> packages self'
  = ModPackage.set_load_after None <$> packages self
  ∧ native_core <$> natives self' = native_core <$> natives self
  ∧ external_packages self' = external_packages self
  ∧ external_natives self' = external_natives self.
Proof.
  intros self'. unfold self', update_load_dependencies. simpl. split_and!;
    try done.
  - by apply fmap_fmap_preserved.
  - rewrite native_core_ensure. by apply fmap_fmap_preserved.
Qed.

(** ** The optimisation pass and the removal of one order *)

(** [_optimize_force_load_dependencies] only drops entries: every native
    keeps all its other fields, each entry left in a [load_before] was
    there before, and no [load_before] is turned into an empty list. *)
Theorem optimize_only_drops (path_name : string → string)
    (ns : list ModNative.t) (dll_name : string) :
  let ns' := _optimize_force_load_dependencies path_name ns dll_name in
  native_core <$> ns' = native_core <$> ns
  ∧ ModNative.load_after <$> ns' = ModNative.load_after <$> ns
  ∧ ∀ k n n',
      ns !! k = Some n → ns' !! k = Some n' →
      (∀ d, d ∈ items (ModNative.load_before n') →
            d ∈ items (ModNative.load_before n))
      ∧ (ModNative.load_before n' = Some [] → ModNative.load_before n = Some []).
Proof.
  intros ns'. unfold ns', _optimize_force_load_dependencies.
  destruct (find_native path_name ns (strip_external dll_name))
    as [[i x]|] eqn:Hfind; [|split_and!; [done..|]; intros; by simplify_eq].
  destruct (truthy (ModNative.load_before x)) eqn:Ht; simpl;
    [|split_and!; [done..|]; intros; by simplify_eq].
  apply list_find_Some in Hfind as (Hi & _). split_and!.
  - by apply fmap_alter_preserved.
  - by apply fmap_alter_preserved.
  - intros k n n' Hn Hn'. destruct (decide (i = k)) as [->|Hne].
    + rewrite list_lookup_alter_eq, Hn in Hn'. simplify_eq/=. split.
      * intros d. rewrite items_or_None. by intros [_ ?]%list_elem_of_filter.
      * by destruct (filter _ _).
    + rewrite list_lookup_alter_ne in Hn' by done. by simplify_eq.
Qed.



(** ** Version comparison *)

Lemma compare_segments_antisym (to_int : string → option Z) (l1 l2 : list string) :
  compare_segments to_int l1 l2 = (- compare_segments to_int l2 l1)%Z.
Proof.
  revert l2. induction l1 as [|s1 l1 IH]; intros [|s2 l2]; simpl; try done.
  destruct (to_int s1) as [n1|], (to_int s2) as [n2|]; try apply IH.
  repeat case_bool_decide; try lia; apply IH.
Qed.

Lemma compare_segments_refl (to_int : string → option Z) (l : list string) :
  compare_segments to_int l l = 0%Z.
Proof.
  induction l as [|s l IH]; simpl; [done|].
  destruct (to_int s); [|done]. repeat case_bool_decide; try lia; done.
Qed.

Lemma lstrip_v_app_dot (s t : string) :
  lstrip_v (s +:+ String "." t) = lstrip_v s +:+ String "." t.
Proof.
  induction s as [|c s IH]; simpl; [done|]. case_bool_decide; [apply IH|done].
Qed.

Lemma split_dot_from_app_zero (cur s : string) :
  split_dot_from cur (s +:+ ".0") = split_dot_from cur s ++ ["0"].
Proof.
  revert cur. induction s as [|c s IH]; intros cur; simpl; [done|].
  case_bool_decide; simpl; by rewrite IH.
Qed.

(** [_compare_versions] is antisymmetric, so a version equals itself, and a
    version compares equal to itself with a further [.0] segment: missing
    trailing segments count as [0].  This holds whatever [int] accepts. *)
Theorem compare_versions_antisym (to_int : string → option Z) (v1 v2 : string) :
  _compare_versions to_int v1 v2 = (- _compare_versions to_int v2 v1)%Z
  ∧ _compare_versions to_int v1 v1 = 0%Z
  ∧ (v1 ≠ "" → _compare_versions to_int v1 (v1 +:+ ".0") = 0%Z).
Proof.
  assert (∀ a b, _compare_versions to_int a b
                 = (- _compare_versions to_int b a)%Z) as Hanti.
  { intros a b. unfold _compare_versions.
    destruct (bool_decide_reflect (a = "")) as [Ha|Ha],
             (bool_decide_reflect (b = "")) as [Hb|Hb]; simpl;
      repeat case_bool_decide; try done.
    rewrite (Nat.max_comm (List.length (split_dot (lstrip_v b)))).
    apply compare_segments_antisym. }
  split_and!; [apply Hanti|pose proof (Hanti v1 v1); lia|].
  intros Hne. unfold _compare_versions.
  rewrite (bool_decide_eq_false_2 (v1 = "")) by done.
  rewrite (bool_decide_eq_false_2 (v1 +:+ ".0" = ""))
    by (by destruct v1).
  simpl. rewrite (lstrip_v_app_dot v1 "0"). unfold split_dot.
  rewrite split_dot_from_app_zero.
  set (l := split_dot_from "" (lstrip_v v1)).
  rewrite length_app. simpl.
  replace (List.length l `max` (List.length l + 1))%nat
    with (List.length l + 1)%nat by lia.
  unfold pad_segments. rewrite length_app. simpl.
  replace (List.length l + 1 - List.length l)%nat with 1%nat by lia.
  replace (List.length l + 1 - (List.length l + 1))%nat with 0%nat by lia.
  simpl. rewrite app_nil_r. apply compare_segments_refl.
Qed.

Lemma compare_versions_antisym_witness :
  _compare_versions decimal_to_int "v1.10" "v1.10.0" = 0%Z
  ∧ _compare_versions decimal_to_int "v1.10" "v1.9" = 1%Z.
Proof.
  split; [|reflexivity].
  apply (compare_versions_antisym decimal_to_int "v1.10" "v1.10"). discriminate.
Defined.

(** ** Comments *)

(** [get_mod_comment] reads back the stripped comment that
    [set_mod_comment] was given, the empty string included (a blank comment
    deletes the entry); the comments of other ids are kept. *)
Theorem set_then_get_mod_comment (strip : string → string)
    (mod_comments : gmap string string) (mod_id comment : string) :
  get_mod_comment (set_mod_comment strip mod_comments mod_id comment) mod_id
  = strip comment
  ∧ ∀ other, other ≠ mod_id →
      get_mod_comment (set_mod_comment strip mod_comments mod_id comment) other
      = get_mod_comment mod_comments other.
Proof.
  unfold get_mod_comment, set_mod_comment. case_bool_decide as Hc; split.
  - by rewrite lookup_insert_eq.
  - intros other Hne. by rewrite lookup_insert_ne.
  - rewrite lookup_delete_eq. simpl. symmetry.
    by destruct (decide (strip comment = "")).
  - intros other Hne. by rewrite lookup_delete_ne.
Qed.

(** ** Methods that touch [load_before] only *)

Section only_load_before.
Variable path_name : string → string.
Context {B : Type} (h : ModNative.t → B).
Hypothesis h_load_before : ∀ v n, h (ModNative.set_load_before v n) = h n.

Lemma only_lb_remove_dep_from fr to n :
  h (remove_dep_from path_name fr to n) = h n.
Proof. unfold remove_dep_from. destruct (_ && _); [apply h_load_before|done]. Qed.

Lemma only_lb_add_edge s n : h (add_edge s n) = h n.
Proof. unfold add_edge. destruct (has_dep_on _ _); apply h_load_before. Qed.

Lemma only_lb_break_cycle ns f s n : h (break_cycle path_name ns f s n) = h n.
Proof.
  unfold break_cycle. destruct (_would_create_circular_dependency _ _ _ _);
    [apply only_lb_remove_dep_from|done].
Qed.

Lemma only_lb_set_order ns first_dll second_dll :
  h <$> (set_specific_dll_order path_name ns first_dll second_dll).2 = h <$> ns.
Proof.
  destruct (set_order_cases path_name ns first_dll second_dll)
    as [->|(i & j & a & b & _ & _ & _ & ->)]; [done|].
  rewrite fmap_alter_preserved by apply only_lb_add_edge.
  apply fmap_fmap_preserved. intros n. apply only_lb_break_cycle.
Qed.

Lemma only_lb_ensure ns :
  h <$> ensure_specific_dll_orders path_name ns = h <$> ns.
Proof.
  unfold ensure_specific_dll_orders, specific_orders. simpl.
  destruct (both_enabled path_name ns _ _) as [[|] [|]]; try done.
  apply only_lb_set_order.
Qed.

Lemma only_lb_optimize ns dll_name :
  h <$> _optimize_force_load_dependencies path_name ns dll_name = h <$> ns.
Proof.
  unfold _optimize_force_load_dependencies.
  destruct (find_native path_name ns _) as [[i x]|]; [|done].
  destruct (negb _); [done|]. by apply fmap_alter_preserved.
Qed.

Lemma only_lb_clear_other t n :
  h (clear_other_force_first path_name t n) = h n.
Proof.
  unfold clear_other_force_first. case_bool_decide; [|done].
  destruct (_ && _); [done|apply h_load_before].
Qed.

Lemma only_lb_set_force ns dll_name :
  h <$> (set_force_load_first_native path_name ns dll_name).2 = h <$> ns.
Proof.
  unfold set_force_load_first_native.
  destruct (find_native path_name ns _) as [[i x]|]; [|done]. simpl.
  rewrite only_lb_optimize, only_lb_ensure.
  destruct (other_enabled_dlls _ _ _);
    (rewrite fmap_alter_preserved by apply h_load_before);
    apply fmap_fmap_preserved, only_lb_clear_other.
Qed.
End only_load_before.

(** [set_force_load_first_native], [set_specific_dll_order],
    [ensure_specific_dll_orders] and the optimisation pass change nothing
    but [load_before] lists: no native is added, removed, reordered, enabled
    or disabled, and every [load_after] is kept.  [set_force_load_first_native]
    succeeds exactly when some native matches the name, and changes nothing
    when it fails. *)
Theorem force_first_only_load_before (path_name : string → string)
    (ns : list ModNative.t) (dll_name first_dll second_dll : string) :
  let blank := ModNative.set_load_before None in
  blank <$> (set_force_load_first_native path_name ns dll_name).2 = blank <$> ns
  ∧ blank <$> (set_specific_dll_order path_name ns first_dll second_dll).2
    = blank <$> ns
  ∧ blank <$> ensure_specific_dll_orders path_name ns = blank <$> ns
  ∧ blank <$> _optimize_force_load_dependencies path_name ns dll_name
    = blank <$> ns
  ∧ ((set_force_load_first_native path_name ns dll_name).1 = true
     ↔ ∃ n, n ∈ ns ∧ native_matches path_name (strip_external dll_name) n = true)
  ∧ ((set_force_load_first_native path_name ns dll_name).1 = false
     → (set_force_load_first_native path_name ns dll_name).2 = ns).
Proof.
  intros blank. split_and!.
  - by apply only_lb_set_force.
  - by apply only_lb_set_order.
  - by apply only_lb_ensure.
  - by apply only_lb_optimize.
  - unfold set_force_load_first_native.
    destruct (find_native path_name ns _) as [[i x]|] eqn:Hfind; simpl.
    + split; [|done]. intros _.
      apply list_find_Some in Hfind as (Hi & Hm & _).
      exists x. split; [by eapply list_elem_of_lookup_2|done].
    + split; [done|]. intros (n & Hn & Hm).
      apply list_find_None in Hfind.
      by eapply Forall_forall in Hfind.
  - unfold set_force_load_first_native.
    by destruct (find_native path_name ns _) as [[i x]|].
Qed.

(** ** Reconciliation twice *)

Section update_twice.
Variable path_name : string → string.
Implicit Types (ns : list ModNative.t) (n : ModNative.t).

Lemma native_key_eq ns ns' k n :
  native_key <$> ns = native_key <$> ns' → ns !! k = Some n →
  ∃ n', ns' !! k = Some n'
        ∧ ModNative.path n' = ModNative.path n
        ∧ ModNative.enabled n' = ModNative.enabled n.
Proof.
  intros Hkey Hk.
  assert ((native_key <$> ns') !! k = Some (native_key n)) as Hk'
    by (by rewrite <-Hkey, list_lookup_fmap, Hk).
  apply list_lookup_fmap_Some in Hk' as (n' & [= Hp He] & Hn'). by exists n'.
Qed.

Lemma enabled_native_names_key ns ns' :
  native_key <$> ns = native_key <$> ns' →
  dll_name_of path_name <$> filter (λ n, ModNative.enabled n = true) ns
  = dll_name_of path_name <$> filter (λ n, ModNative.enabled n = true) ns'.
Proof.
  revert ns'. induction ns as [|n ns IH]; intros [|n' ns'] Hkey;
    simplify_eq/=; [done|].
  rewrite !filter_cons. unfold native_key in *. simplify_eq.
  specialize (IH ns' ltac:(done)).
  replace (ModNative.enabled n') with (ModNative.enabled n) by done.
  case_decide; csimpl; unfold dll_name_of in *; congruence.
Qed.

Lemma both_enabled_key ns ns' f s :
  native_key <$> ns = native_key <$> ns' →
  both_enabled path_name ns f s = both_enabled path_name ns' f s.
Proof.
  unfold both_enabled. generalize (false, false).
  revert ns'. induction ns as [|n ns IH]; intros [|n' ns'] acc Hkey;
    simplify_eq/=; [done|].
  unfold native_key in *. simplify_eq. destruct acc as [fe se]. simpl.
  assert (dll_name_of path_name n' = dll_name_of path_name n) as ->
    by (unfold dll_name_of; congruence).
  replace (ModNative.enabled n') with (ModNative.enabled n) by done.
  by apply IH.
Qed.

Lemma filter_enabled_deps_fixed (S : gset string) (l : option (list Dep)) :
  (∀ d, d ∈ items l → dep_get_id d ∈ S) → filter_enabled_deps S l = l.
Proof.
  intros Hall. unfold filter_enabled_deps.
  destruct l as [[|d l]|]; try done. simpl in *.
  assert (filter (λ dep, dep_get_id dep ∈ S) (d :: l) = d :: l) as ->; [|done].
  induction (d :: l) as [|e es IH]; [done|].
  rewrite filter_cons, decide_True by (apply Hall; constructor).
  f_equal. apply IH. intros d' Hd'. apply Hall. by constructor.
Qed.

(** The natives as [update_load_dependencies] leaves them pass its filter
    unchanged. *)
Lemma update_native_deps_fixed ns k n2 :
  let S : gset string :=
    list_to_set (dll_name_of path_name
                   <$> filter (λ n, ModNative.enabled n = true) ns) in
  ensure_specific_dll_orders path_name (update_native_deps S <$> ns) !! k
  = Some n2 →
  update_native_deps S n2 = n2.
Proof.
  intros S Hk.
  destruct (ensure_frame _ _ _ _ Hk) as (n1 & Hn1 & _ & _ & Hla & _ & Hlb).
  apply list_lookup_fmap_Some in Hn1 as (n & -> & Hn).
  assert (filter_enabled_deps S (ModNative.load_before n2)
          = ModNative.load_before n2) as Hfb.
  { apply filter_enabled_deps_fixed. intros d Hd.
    destruct (Hlb _ Hd) as [Hold|(m & Hm & Hen & Hid)].
    - simpl in Hold. by eapply filter_enabled_deps_items.
    - apply list_elem_of_fmap in Hm as (m0 & -> & Hm0).
      unfold dep_get_id. rewrite Hid. simpl.
      apply elem_of_list_to_set, list_elem_of_fmap.
      exists m0. split; [done|]. by apply list_elem_of_filter. }
  assert (filter_enabled_deps S (ModNative.load_after n2)
          = ModNative.load_after n2) as Hfa.
  { rewrite Hla. simpl. apply filter_enabled_deps_idemp. }
  unfold update_native_deps. simpl. rewrite Hfb, Hfa. by destruct n2.
Qed.
End update_twice.

Lemma manager_eq (m m' : ModConfigManager) :
  packages m = packages m' → natives m = natives m' →
  external_packages m = external_packages m' →
  external_natives m = external_natives m' → m = m'.
Proof. destruct m, m'. simpl. congruence. Qed.

(** Running [update_load_dependencies] a second time leaves the packages
    as the first run left them; it leaves the whole manager as the first
    run left it when the two natives that the lookup of the fixed pair
    finds, if any, have different file names. *)
Theorem update_load_dependencies_idempotent (path_name : string → string)
    (self : ModConfigManager) :
  packages (update_load_dependencies path_name
              (update_load_dependencies path_name self))
  = packages (update_load_dependencies path_name self)
  ∧ ((∀ i j a b,
        locate_pair path_name "nighter.dll" "nrsc.dll" (natives self) 0
          (None, None) = (Some i, Some j) →
        natives self !! i = Some a → natives self !! j = Some b →
        dll_name_of path_name a ≠ dll_name_of path_name b) →
     update_load_dependencies path_name
       (update_load_dependencies path_name self)
     = update_load_dependencies path_name self).
Proof.
  split; [apply update_packages_idemp|]. intros Hnames.
  pose proof (update_packages_idemp path_name self) as Hps.
  set (self1 := update_load_dependencies path_name self) in *.
  assert (natives (update_load_dependencies path_name self1) = natives self1)
    as Hns.
  { unfold self1, update_load_dependencies. simpl.
    set (S := list_to_set (dll_name_of path_name <$> filter _ (natives self))
              : gset string).
    set (ns1 := update_native_deps S <$> natives self).
    assert (native_key <$> ns1 = native_key <$> natives self) as Hkey1
      by (by apply fmap_fmap_preserved).
    assert (native_key <$> ensure_specific_dll_orders path_name ns1
            = native_key <$> ns1) as Hkey2 by (by apply only_lb_ensure).
    rewrite (enabled_native_names_key path_name _ (natives self))
      by congruence.
    fold S.
    assert (update_native_deps S <$> ensure_specific_dll_orders path_name ns1
            = ensure_specific_dll_orders path_name ns1) as ->.
    { rewrite <-(list_fmap_id (ensure_specific_dll_orders path_name ns1)) at 2.
      apply list_fmap_ext. intros k n2 Hk.
      by apply (update_native_deps_fixed path_name (natives self) k). }
    unfold ensure_specific_dll_orders at 1 3, specific_orders. simpl.
    rewrite (both_enabled_key path_name _ ns1) by done.
    destruct (both_enabled path_name ns1 _ _) as [[|] [|]] eqn:Hboth;
      unfold ensure_specific_dll_orders, specific_orders; simpl;
      rewrite ?Hboth; try done.
    rewrite set_order_idemp; [done|].
    intros i j a1 b1 Hloc Ha1 Hb1.
    change (strip_external "nighter.dll") with "nighter.dll" in Hloc.
    change (strip_external "nrsc.dll") with "nrsc.dll" in Hloc.
    destruct (native_key_eq ns1 (natives self) i a1 Hkey1 Ha1)
      as (a & Ha & Hpa & _).
    destruct (native_key_eq ns1 (natives self) j b1 Hkey1 Hb1)
      as (b & Hb & Hpb & _).
    unfold dll_name_of. rewrite <-Hpa, <-Hpb.
    apply (Hnames i j a b); [|done..].
    rewrite <-Hloc. apply locate_pair_paths.
    transitivity (fst <$> (native_key <$> natives self)).
    - rewrite <-list_fmap_compose. by apply list_fmap_ext.
    - rewrite <-Hkey1, <-list_fmap_compose. by apply list_fmap_ext. }
  apply manager_eq; done.
Qed.

Lemma update_load_dependencies_idempotent_witness :
  let self :=
    mkManager
      [package_of "A" true (Some [new_dep true "gone"])]
      [native_at "nighter.dll" true None;
       native_at "nrsc.dll" true (Some [new_dep false "nighter.dll"])] ∅ ∅ in
  update_load_dependencies basename (update_load_dependencies basename self)
  = update_load_dependencies basename self.
Proof.
  intros self.
  apply (proj2 (update_load_dependencies_idempotent basename self)).
  intros i j a b Hloc Ha Hb. vm_compute in Hloc. injection Hloc as <- <-.
  vm_compute in Ha, Hb. injection Ha as <-. injection Hb as <-.
  vm_compute. discriminate.
Defined.

(** ** Disabling a native *)

(** Disabling through the user interface is [remove_native] followed by
    [update_load_dependencies].  When the file names of the natives are
    pairwise distinct, no [load_before] and no [load_after] of a native
    refers to the file name of the removed native afterwards. *)
Theorem remove_native_then_update (path_name : string → string)
    (self : ModConfigManager) (dll_path : string) (ns1 : list ModNative.t)
    (x : ModNative.t) :
  NoDup (dll_name_of path_name <$> natives self) →
  remove_native path_name (natives self) dll_path = (true, ns1) →
  x ∈ natives self → x ∉ ns1 →
  ∀ q l d,
    q ∈ natives (update_load_dependencies path_name (set_natives ns1 self)) →
    ModNative.load_before q = Some l ∨ ModNative.load_after q = Some l →
    d ∈ l →
    dep_id d ≠ Some (dll_name_of path_name x).
Proof.
  intros Hnodup Hrem Hx Hgone q l d Hq Hl Hd Hid.
  unfold remove_native in Hrem.
  destruct (list_find _ (natives self)) as [[i y]|] eqn:Hfind; [|discriminate].
  injection Hrem as <-.
  apply list_elem_of_lookup_1 in Hx as [j Hj].
  assert (j = i) as ->.
  { destruct (decide (j = i)) as [|Hne]; [done|]. destruct Hgone.
    destruct (decide (j < i)) as [Hlt|Hge].
    - apply (list_elem_of_lookup_2 _ j). by rewrite list_lookup_delete_lt.
    - destruct j as [|j']; [lia|]. apply (list_elem_of_lookup_2 _ j').
      rewrite list_lookup_delete_ge by lia. done. }
  unfold update_load_dependencies in Hq. simpl in Hq.
  destruct (update_natives_targets_enabled path_name (delete i (natives self))
              _ q d eq_refl Hq) as (m & Hm & _ & Hname).
  { destruct Hl as [-> | ->]; [by left|by right]. }
  assert (dll_name_of path_name m = dll_name_of path_name x) as Hmx.
  { destruct Hname as [->|Hname]; [|congruence].
    unfold dep_get_id. by rewrite Hid. }
  apply list_elem_of_lookup_1 in Hm as [k Hk].
  destruct (ensure_frame _ _ _ _ Hk) as (m1 & Hm1 & Hp & _).
  apply list_lookup_fmap_Some in Hm1 as (m0 & -> & Hm0).
  simpl in Hp.
  assert (m0 ∈ delete i (natives self)) as Hin
    by (by eapply list_elem_of_lookup_2).
  apply delete_elem_lookup in Hin as (j' & Hne & Hj').
  apply Hne. apply (NoDup_lookup _ _ _ (dll_name_of path_name x) Hnodup).
  - rewrite list_lookup_fmap, Hj'. simpl. f_equal.
    unfold dll_name_of in *. by rewrite <-Hp.
  - by rewrite list_lookup_fmap, Hj.
Qed.

Lemma remove_native_then_update_witness :
  dep_id (new_dep false "b.dll") ≠ Some "c.dll".
Proof.
  apply (remove_native_then_update basename
           (mkManager []
              [native_at "a.dll" true
                 (Some [new_dep false "b.dll"; new_dep false "c.dll"]);
               native_at "b.dll" true None;
               native_at "mods/c.dll" true None] ∅ ∅)
           "c.dll"
           [native_at "a.dll" true
              (Some [new_dep false "b.dll"; new_dep false "c.dll"]);
            native_at "b.dll" true None]
           (native_at "mods/c.dll" true None))
    with (q := native_at "a.dll" true (Some [new_dep false "b.dll"]))
         (l := [new_dep false "b.dll"]).
  - vm_compute. repeat constructor; intros Hin; inversion Hin as [|? ? ? Hin'];
      subst; try inversion Hin' as [|? ? ? Hin'']; subst; try inversion Hin''.
  - reflexivity.
  - apply list_elem_of_further, list_elem_of_further, list_elem_of_here.
  - intros Hin. inversion Hin as [|? ? ? Hin']; subst.
    inversion Hin' as [|? ? ? Hin'']; subst. inversion Hin''.
  - vm_compute. apply list_elem_of_here.
  - by left.
  - apply list_elem_of_here.
Defined.

(** ** Further instances *)

Lemma clear_force_load_last_clears_witness :
  (clear_force_load_last
     [package_of "A" true (Some [new_dep true "B"]);
      package_of "B" true (Some [new_dep true "A"])]
     "B").2
  !! 1 = Some (package_of "B" true None)
  ∧ (clear_force_load_last
       [package_of "A" true (Some [new_dep true "B"]);
        package_of "B" true (Some [new_dep true "A"])]
       "B").2
    !! 0 = Some (package_of "A" true (Some [new_dep true "B"])).
Proof.
  destruct (clear_force_load_last_clears
              [package_of "A" true (Some [new_dep true "B"]);
               package_of "B" true (Some [new_dep true "A"])] "B")
    as (_ & _ & _ & _ & Hframe).
  destruct (Hframe 1 (package_of "B" true (Some [new_dep true "A"])))
    as [Hcleared Hothers]; [reflexivity|reflexivity| |].
  - intros [|j] y Hy Hj; [|lia]. injection Hy as <-. vm_compute. discriminate.
  - split; [exact Hcleared|]. rewrite (Hothers 0); [reflexivity|discriminate].
Defined.

Lemma optimize_only_drops_witness :
  new_dep false "nighter.dll"
  ∈ items (Some [new_dep false "nighter.dll"; new_dep false "nrsc.dll"]).
Proof.
  destruct (optimize_only_drops basename
              [native_at "x.dll" true
                 (Some [new_dep false "nighter.dll"; new_dep false "nrsc.dll"]);
               native_at "nighter.dll" true (Some [new_dep false "nrsc.dll"]);
               native_at "nrsc.dll" true None] "x.dll") as (_ & _ & Hdrops).
  destruct (Hdrops 0
              (native_at "x.dll" true
                 (Some [new_dep false "nighter.dll"; new_dep false "nrsc.dll"]))
              (native_at "x.dll" true (Some [new_dep false "nighter.dll"])))
    as [Hsub _]; [reflexivity|reflexivity|].
  apply Hsub. apply list_elem_of_here.
Defined.

Lemma set_then_get_mod_comment_witness :
  get_mod_comment
    (set_mod_comment (λ s, s) {["A" := "first"]} "B" "second") "A" = "first".
Proof.
  destruct (set_then_get_mod_comment (λ s, s) {["A" := "first"]} "B" "second")
    as [_ Hother].
  rewrite Hother; [reflexivity|discriminate].
Defined.

Lemma force_first_only_load_before_witness :
  (set_force_load_first_native basename
     [native_at "x.dll" true None; native_at "y.dll" false None] "x.dll").1
  = true.
Proof.
  apply (force_first_only_load_before basename
           [native_at "x.dll" true None; native_at "y.dll" false None]
           "x.dll" "x.dll" "y.dll").
  exists (native_at "x.dll" true None).
  split; [apply list_elem_of_here|reflexivity].
Defined.
